(** * A TTL cache and a token cipher: verification against the specification

    Shallow embedding of [src/lib/cache/cache-manager.ts] and
    [src/lib/security/token-encryption.ts].

    Conventions of the embedding.
    - A JavaScript [Map<string, V>] is an association list in insertion
      order with pairwise distinct keys ([JSMap.wf]); the order is kept
      because the capacity eviction sorts [Array.from(cache.entries())]
      with a stable sort, so ties are broken by insertion order.
    - JavaScript numbers that hold timestamps, sizes and counters are
      integers ([Z]); [Date.now()] is an explicit argument of every
      operation that reads the clock.
    - A [Buffer] is a [list byte]; a JavaScript string is a [string].
    - A [try { ... } catch { ... }] block is a computation in the error
      monad [result] followed by a handler. *)

From Stdlib Require Import ZArith NArith List String Ascii Bool Lia.
From Stdlib Require Import Strings.Byte DecimalString.
From Stdlib Require Import QArith Permutation Sorting.Sorted.
Import ListNotations.
Local Open Scope string_scope.
Local Open Scope list_scope.
Local Open Scope Z_scope.

(* ================================================================== *)
(** * The JavaScript [Map] with string keys *)
(* ================================================================== *)

Module JSMap.

Section Ops.
Context {V : Type}.

Definition t : Type := list (string * V).

Definition empty : t := [].

(** [Map.prototype.get]: [None] stands for [undefined]. *)
Fixpoint get (k : string) (m : t) : option V :=
  match m with
  | [] => None
  | (k', v) :: m' => if String.eqb k k' then Some v else get k m'
  end.

(** [Map.prototype.set]: an existing key keeps its position, a new key
    goes last. *)
Fixpoint set (k : string) (v : V) (m : t) : t :=
  match m with
  | [] => [(k, v)]
  | (k', v') :: m' =>
      if String.eqb k k' then (k, v) :: m' else (k', v') :: set k v m'
  end.

Definition has (k : string) (m : t) : bool :=
  match get k m with Some _ => true | None => false end.

(** [Map.prototype.delete]: the map without [k]. The boolean the method
    returns is [has k m]. *)
Definition delete (k : string) (m : t) : t :=
  filter (fun kv => negb (String.eqb k (fst kv))) m.

Definition size (m : t) : Z := Z.of_nat (List.length m).

Definition keys (m : t) : list string := map fst m.

Definition values (m : t) : list V := map snd m.

(** Keys of a [Map] are pairwise distinct. *)
Definition wf (m : t) : Prop := NoDup (keys m).

(** The keys of [ks] deleted one after the other, as
    [ks.forEach(key => map.delete(key))] does. *)
Definition delete_each (ks : list string) (m : t) : t :=
  fold_left (fun c k => delete k c) ks m.

End Ops.

Arguments t : clear implicits.

End JSMap.

(* ================================================================== *)
(** * cache-manager.ts *)
(* ================================================================== *)

(** [CacheStats], the value [getStats] resolves to. [hitRate] is the
    exact quotient of the two counters. *)
Module CacheStats.
Record t : Type := mk
  { size : Z;
    hitRate : Q;
    entries : Z;
    memoryUsage : Z }.
End CacheStats.

Module Cache.

Section CacheManager.

(** The type of cached payloads and [JSON.stringify(data).length] with
    its [catch] fallback, which the cache only stores. *)
Variable T : Type.
Variable calculateSize : T -> Z.

Record CacheEntry : Type := mkEntry
  { data : T;
    expires : Z;
    size : Z }.

Record CacheManager : Type := mkCache
  { cache : JSMap.t CacheEntry;
    hits : Z;
    misses : Z }.

(** [new CacheManager()] *)
Definition new : CacheManager :=
  {| cache := JSMap.empty; hits := 0; misses := 0 |}.

(** [isExpired(entry)], with [now] the value of [Date.now()]. *)
Definition isExpired (entry : CacheEntry) (now : Z) : bool :=
  expires entry <? now.

(** [get(key)]: [None] is the [return null] of a miss. *)
Definition get (key : string) (now : Z) (this : CacheManager)
  : option T * CacheManager :=
  match JSMap.get key (cache this) with
  | None =>
      (None, {| cache := cache this;
                hits := hits this;
                misses := misses this + 1 |})
  | Some entry =>
      if isExpired entry now then
        (None, {| cache := JSMap.delete key (cache this);
                  hits := hits this;
                  misses := misses this + 1 |})
      else
        (Some (data entry), {| cache := cache this;
                               hits := hits this + 1;
                               misses := misses this |})
  end.

(** The comparator [(a, b) => a[1].expires - b[1].expires] under the
    stable [Array.prototype.sort]: insertion from the right, an element
    going in front of the first one that does not expire earlier. *)
Fixpoint insert_by_expires (x : string * CacheEntry)
  (l : list (string * CacheEntry)) : list (string * CacheEntry) :=
  match l with
  | [] => [x]
  | y :: l' =>
      if expires (snd x) <=? expires (snd y) then x :: y :: l'
      else y :: insert_by_expires x l'
  end.

Definition sort_by_expires (l : list (string * CacheEntry))
  : list (string * CacheEntry) :=
  fold_right insert_by_expires [] l.

(** [cleanup()]: the keys of the expired entries are collected and
    deleted; then, above 1000 entries, the entries are sorted by
    [expires] and the first 100 deleted. *)
Definition cleanup (now : Z) (this : CacheManager) : CacheManager :=
  let keysToDelete :=
    map fst (filter (fun kv => expires (snd kv) <? now) (cache this)) in
  let c := JSMap.delete_each keysToDelete (cache this) in
  if 1000 <? JSMap.size c then
    let entries := sort_by_expires c in
    let toRemove := firstn 100 entries in
    {| cache := JSMap.delete_each (map fst toRemove) c;
       hits := hits this;
       misses := misses this |}
  else
    {| cache := c; hits := hits this; misses := misses this |}.

(** [set(key, data, ttl)]: [now] is the clock read for [expires],
    [now'] the clock read by [cleanup]; a caller that omits [ttl] passes
    3600. *)
Definition set (key : string) (d : T) (ttl : Z) (now now' : Z)
  (this : CacheManager) : CacheManager :=
  let entry :=
    {| data := d; expires := now + ttl * 1000; size := calculateSize d |} in
  cleanup now' {| cache := JSMap.set key entry (cache this);
                  hits := hits this;
                  misses := misses this |}.

(** [delete(key)] *)
Definition delete (key : string) (this : CacheManager)
  : bool * CacheManager :=
  (JSMap.has key (cache this),
   {| cache := JSMap.delete key (cache this);
      hits := hits this;
      misses := misses this |}).

(** [clear(prefix?)]: an absent or empty prefix is falsy. *)
Definition clear (prefix : option string) (this : CacheManager)
  : CacheManager :=
  match prefix with
  | None | Some EmptyString =>
      {| cache := JSMap.empty; hits := hits this; misses := misses this |}
  | Some p =>
      let keysToDelete :=
        filter (fun key => String.prefix p key) (JSMap.keys (cache this)) in
      {| cache := JSMap.delete_each keysToDelete (cache this);
         hits := hits this;
         misses := misses this |}
  end.

(** [has(key)] *)
Definition has (key : string) (now : Z) (this : CacheManager) : bool :=
  match JSMap.get key (cache this) with
  | Some entry => negb (isExpired entry now)
  | None => false
  end.

(** The loop of [getStats] over [cache.values()]. *)
Definition count_valid (now : Z) (acc : Z * Z) (entry : CacheEntry)
  : Z * Z :=
  if negb (isExpired entry now)
  then (fst acc + size entry, snd acc + 1)
  else acc.

(** [getStats()]: [heapUsed] is [process.memoryUsage?.().heapUsed]. *)
Definition getStats (now : Z) (heapUsed : option Z) (this : CacheManager)
  : CacheStats.t :=
  let '(totalSize, validEntries) :=
    fold_left (count_valid now) (JSMap.values (cache this)) (0, 0) in
  let totalRequests := hits this + misses this in
  let hitRate :=
    if 0 <? totalRequests
    then Qmake (hits this) (Z.to_pos totalRequests)
    else 0%Q in
  {| CacheStats.size := totalSize;
     CacheStats.hitRate := hitRate;
     CacheStats.entries := validEntries;
     CacheStats.memoryUsage :=
       match heapUsed with Some h => h | None => 0 end |}.

(** ** Notions used in the statements *)

(** The two steps of [cleanup] on the map: the expired entries swept,
    and the entries the capacity check removes, none up to 1000 entries. *)
Definition sweep_expired (now : Z) (c : JSMap.t CacheEntry)
  : JSMap.t CacheEntry :=
  JSMap.delete_each
    (map fst (filter (fun kv => expires (snd kv) <? now) c)) c.

Definition toRemove (c : JSMap.t CacheEntry)
  : list (string * CacheEntry) :=
  if 1000 <? JSMap.size c then firstn 100 (sort_by_expires c) else [].

Definition evict (c : JSMap.t CacheEntry) : JSMap.t CacheEntry :=
  JSMap.delete_each (map fst (toRemove c)) c.

(** The order of the comparator. *)
Definition le_expires (x y : string * CacheEntry) : Prop :=
  expires (snd x) <= expires (snd y).

(** The map at the capacity check of [set]: the entry inserted, the
    expired entries swept. *)
Definition swept (key : string) (d : T) (ttl : Z) (now now' : Z)
  (this : CacheManager) : JSMap.t CacheEntry :=
  sweep_expired now'
    (JSMap.set key
       {| data := d; expires := now + ttl * 1000; size := calculateSize d |}
       (cache this)).

(** Total size and number of the entries that are not expired, as the
    loop of [getStats] computes them. *)
Definition live (now : Z) (c : JSMap.t CacheEntry) : Z * Z :=
  fold_left (count_valid now) (JSMap.values c) (0, 0).

(** A run of [set] calls at one reading [now] of the clock, each call
    given as key, value and ttl. *)
Definition set_all (now : Z) (l : list (string * T * Z))
  (this : CacheManager) : CacheManager :=
  fold_left
    (fun st '(k, d, ttl) => set k d ttl now now st) l this.

(** The entry such a call stores. *)
Definition entry_of (now : Z) (r : string * T * Z) : string * CacheEntry :=
  let '(k, d, ttl) := r in
  (k, {| data := d; expires := now + ttl * 1000; size := calculateSize d |}).

End CacheManager.

Arguments data {T} _.
Arguments expires {T} _.
Arguments size {T} _.
Arguments cache {T} _.
Arguments hits {T} _.
Arguments misses {T} _.
Arguments mkEntry {T} _ _ _.
Arguments mkCache {T} _ _ _.
Arguments new {T}.
Arguments isExpired {T} _ _.
Arguments get {T} _ _ _.
Arguments sort_by_expires {T} _.
Arguments insert_by_expires {T} _ _.
Arguments sweep_expired {T} _ _.
Arguments toRemove {T} _.
Arguments evict {T} _.
Arguments cleanup {T} _ _.
Arguments set {T} _ _ _ _ _ _ _.
Arguments delete {T} _ _.
Arguments clear {T} _ _.
Arguments has {T} _ _ _.
Arguments count_valid {T} _ _ _.
Arguments getStats {T} _ _ _.
Arguments le_expires {T} _ _.
Arguments swept {T} _ _ _ _ _ _ _.
Arguments live {T} _ _.
Arguments set_all {T} _ _ _ _.
Arguments entry_of {T} _ _ _.

End Cache.

(* ================================================================== *)
(** * Node's [Buffer]: slicing and the hex and base64 codecs *)
(* ================================================================== *)

(** [Buffer] belongs to Node, not to the repository: its methods are
    modelled after their documented behaviour. *)
Module Buffer.

Definition t : Type := list byte.

(** A relative index of [subarray]: a negative one counts from the end,
    and the result is clamped to the buffer. *)
Definition rel_index (i len : Z) : Z :=
  if i <? 0 then Z.max (len + i) 0 else Z.min i len.

(** [buf.subarray(start, end)]; [None] is an omitted [end]. *)
Definition subarray (buf : t) (start : Z) (end_ : option Z) : t :=
  let len := Z.of_nat (List.length buf) in
  let s := rel_index start len in
  let e := match end_ with Some e => rel_index e len | None => len end in
  firstn (Z.to_nat (e - s)) (skipn (Z.to_nat s) buf).

(** [Buffer.concat(list)] *)
Definition concat (l : list t) : t := List.concat l.

Local Open Scope N_scope.

Definition byte_of_N (n : N) : byte :=
  match Byte.of_N (n mod 256) with
  | Some b => b
  | None => x00
  end.

(** ** hex *)

Definition hex_digit (n : N) : ascii :=
  match String.get (N.to_nat n) "0123456789abcdef" with
  | Some c => c
  | None => "0"%char
  end.

Definition unhex (c : ascii) : option N :=
  let n := N_of_ascii c in
  if (48 <=? n) && (n <=? 57) then Some (n - 48)
  else if (97 <=? n) && (n <=? 102) then Some (n - 87)
  else if (65 <=? n) && (n <=? 70) then Some (n - 55)
  else None.

(** [buf.toString('hex')] *)
Fixpoint toString_hex (buf : t) : string :=
  match buf with
  | [] => EmptyString
  | b :: buf' =>
      String (hex_digit (Byte.to_N b / 16))
        (String (hex_digit (Byte.to_N b mod 16)) (toString_hex buf'))
  end.

(** [Buffer.from(s, 'hex')]: pairs of digits, up to the first pair
    that is not hexadecimal. *)
Fixpoint from_hex (s : string) : t :=
  match s with
  | String h (String l s') =>
      match unhex h, unhex l with
      | Some hi, Some lo => byte_of_N (hi * 16 + lo) :: from_hex s'
      | _, _ => []
      end
  | _ => []
  end.

(** ** base64 *)

Definition b64_alphabet : string :=
  "ABCDEFGHIJKLMNOPQRSTUVWXYZabcdefghijklmnopqrstuvwxyz0123456789+/".

Definition b64_char (n : N) : ascii :=
  match String.get (N.to_nat n) b64_alphabet with
  | Some c => c
  | None => "="%char
  end.

(** The value of a base64 character, of the standard or of the
    URL-safe alphabet. *)
Definition unbase64 (c : ascii) : option N :=
  let n := N_of_ascii c in
  if (65 <=? n) && (n <=? 90) then Some (n - 65)
  else if (97 <=? n) && (n <=? 122) then Some (n - 71)
  else if (48 <=? n) && (n <=? 57) then Some (n + 4)
  else if (n =? 43) || (n =? 45) then Some 62
  else if (n =? 47) || (n =? 95) then Some 63
  else None.

(** [buf.toString('base64')]: three bytes give four characters, a
    shorter last group is padded with [=]. *)
Fixpoint toString_base64 (buf : t) : string :=
  match buf with
  | [] => EmptyString
  | [x] =>
      let x := Byte.to_N x in
      String (b64_char (x / 4))
        (String (b64_char (x mod 4 * 16)) "==")
  | [x; y] =>
      let x := Byte.to_N x in
      let y := Byte.to_N y in
      String (b64_char (x / 4))
        (String (b64_char (x mod 4 * 16 + y / 16))
           (String (b64_char (y mod 16 * 4)) "="))
  | x :: y :: z :: buf' =>
      let x := Byte.to_N x in
      let y := Byte.to_N y in
      let z := Byte.to_N z in
      String (b64_char (x / 4))
        (String (b64_char (x mod 4 * 16 + y / 16))
           (String (b64_char (y mod 16 * 4 + z / 64))
              (String (b64_char (z mod 64)) (toString_base64 buf'))))
  end.

(** The decoder is forgiving: a character outside the alphabets is
    skipped and the first [=] ends the input. *)
Fixpoint b64_sextets (s : string) : list N :=
  match s with
  | EmptyString => []
  | String c s' =>
      if Ascii.eqb c "="%char then []
      else match unbase64 c with
           | Some n => n :: b64_sextets s'
           | None => b64_sextets s'
           end
  end.

Fixpoint b64_bytes (l : list N) : t :=
  match l with
  | a :: b :: c :: d :: l' =>
      byte_of_N (a * 4 + b / 16)
        :: byte_of_N (b mod 16 * 16 + c / 4)
        :: byte_of_N (c mod 4 * 64 + d)
        :: b64_bytes l'
  | [a; b; c] =>
      [byte_of_N (a * 4 + b / 16); byte_of_N (b mod 16 * 16 + c / 4)]
  | [a; b] => [byte_of_N (a * 4 + b / 16)]
  | _ => []
  end.

(** [Buffer.from(s, 'base64')]; it does not throw. *)
Definition from_base64 (s : string) : t := b64_bytes (b64_sextets s).

End Buffer.

(* ================================================================== *)
(** * Exceptions *)
(* ================================================================== *)

(** A computation that returns or throws. *)
Inductive result (A : Type) : Type :=
| Ok (a : A)
| Throw (error : string).

Arguments Ok {A} a.
Arguments Throw {A} error.

Definition bind {A B : Type} (m : result A) (k : A -> result B) : result B :=
  match m with
  | Ok a => k a
  | Throw e => Throw e
  end.

Notation "x <- m ;; k" := (bind m (fun x => k))
  (at level 61, m at next level, right associativity).
Notation "' p <- m ;; k" := (bind m (fun x => let p := x in k))
  (at level 61, p pattern, m at next level, right associativity).

(** [try { body } catch (error) { handler }] *)
Definition try_catch {A : Type} (body : result A) (handler : string -> A)
  : A :=
  match body with
  | Ok a => a
  | Throw e => handler e
  end.

(* ================================================================== *)
(** * token-encryption.ts *)
(* ================================================================== *)

(** What the cipher takes from Node's [crypto] and string decoding. *)
Class NodeCrypto : Type :=
  { (** [createHash('sha256').update(bytes).digest()] *)
    sha256 : Buffer.t -> Buffer.t;
    (** [createCipheriv('aes-256-gcm', key, iv)], then the output of
        [update] followed by that of [final], and [getAuthTag()] *)
    gcm_encrypt : Buffer.t -> Buffer.t -> Buffer.t
                  -> result (Buffer.t * Buffer.t);
    (** [createDecipheriv('aes-256-gcm', key, iv)], [setAuthTag(tag)],
        then the output of [update] followed by that of [final] *)
    gcm_decrypt : Buffer.t -> Buffer.t -> Buffer.t -> Buffer.t
                  -> result Buffer.t;
    (** a string to its UTF-8 bytes, and back *)
    utf8_encode : string -> Buffer.t;
    utf8_decode : Buffer.t -> string }.

Module TokenEncryption.

Section Cipher.
Context `{NodeCrypto}.

Definition KEY_LENGTH : Z := 32.
Definition IV_LENGTH : Z := 12.
Definition TAG_LENGTH : Z := 16.

(** [getEncryptionKey()]: [env] is [process.env.ENCRYPTION_KEY]; an
    empty string is falsy. *)
Definition getEncryptionKey (env : option string) : Buffer.t :=
  let fallbackKey := "figma-converter-dev-key-2024" in
  match env with
  | Some (String c k) => sha256 (utf8_encode (String c k))
  | _ => sha256 (utf8_encode fallbackKey)
  end.

(** The [try] block of [encrypt]; [randomBytes] is the source of
    randomness of this call. The hex text of [update] and [final] is
    decoded again before the concatenation. *)
Definition encrypt_try (env : option string)
  (randomBytes : Z -> Buffer.t) (token : string) : result string :=
  let key := getEncryptionKey env in
  let iv := randomBytes IV_LENGTH in
  '(ciphertext, authTag) <- gcm_encrypt key iv (utf8_encode token) ;;
  let encrypted := Buffer.toString_hex ciphertext in
  let combined :=
    Buffer.concat [iv; Buffer.from_hex encrypted; authTag] in
  Ok (Buffer.toString_base64 combined).

(** [encrypt(token)] *)
Definition encrypt (env : option string) (randomBytes : Z -> Buffer.t)
  (token : string) : string :=
  try_catch (encrypt_try env randomBytes token) (fun _ => token).

(** The [try] block of [decrypt]. *)
Definition decrypt_try (env : option string) (encryptedToken : string)
  : result string :=
  let key := getEncryptionKey env in
  let combined := Buffer.from_base64 encryptedToken in
  let iv := Buffer.subarray combined 0 (Some IV_LENGTH) in
  let authTag := Buffer.subarray combined (- TAG_LENGTH) None in
  let encrypted :=
    Buffer.subarray combined IV_LENGTH (Some (- TAG_LENGTH)) in
  decrypted <- gcm_decrypt key iv encrypted authTag ;;
  Ok (utf8_decode decrypted).

(** [decrypt(encryptedToken)] *)
Definition decrypt (env : option string) (encryptedToken : string)
  : string :=
  try_catch (decrypt_try env encryptedToken) (fun _ => encryptedToken).

End Cipher.

(** [isEncrypted(token)] *)
Definition isEncrypted (token : string) : bool :=
  try_catch
    (let decoded := Buffer.from_base64 token in
     let minimumLength := IV_LENGTH + TAG_LENGTH + 1 in
     Ok (minimumLength <=? Z.of_nat (List.length decoded)))
    (fun _ => false).

End TokenEncryption.

(* ================================================================== *)
(** * cache-manager.ts: runs of operations *)
(* ================================================================== *)

(** The calls a user of the cache can make, each with the clock readings
    it takes, and the state after a sequence of them. *)
Module CacheRun.

Section Run.
Variable T : Type.
Variable calculateSize : T -> Z.

Inductive op : Type :=
| OpGet (key : string) (now : Z)
| OpSet (key : string) (d : T) (ttl : Z) (now now' : Z)
| OpDelete (key : string)
| OpClear (prefix : option string).

Definition step (this : Cache.CacheManager T) (o : op)
  : Cache.CacheManager T :=
  match o with
  | OpGet key now => snd (Cache.get key now this)
  | OpSet key d ttl now now' => Cache.set calculateSize key d ttl now now' this
  | OpDelete key => snd (Cache.delete key this)
  | OpClear prefix => Cache.clear prefix this
  end.

Definition run (ops : list op) (this : Cache.CacheManager T)
  : Cache.CacheManager T :=
  fold_left step ops this.

Definition is_get (o : op) : bool :=
  match o with OpGet _ _ => true | _ => false end.

(** A call of [set] with the two clock readings it takes: [call_now] for
    [expires], [call_now'] in [cleanup]. *)
Record set_call : Type := mkSetCall
  { call_key : string;
    call_data : T;
    call_ttl : Z;
    call_now : Z;
    call_now' : Z }.

(** A sequence of [set] calls, in the order of the list. *)
Definition set_each (calls : list set_call) (this : Cache.CacheManager T)
  : Cache.CacheManager T :=
  fold_left
    (fun st c =>
       Cache.set calculateSize (call_key c) (call_data c) (call_ttl c)
         (call_now c) (call_now' c) st)
    calls this.

(** The entry that a call stores. *)
Definition stored (c : set_call) : string * Cache.CacheEntry T :=
  (call_key c,
   {| Cache.data := call_data c;
      Cache.expires := call_now c + call_ttl c * 1000;
      Cache.size := calculateSize (call_data c) |}).

(** What every operation keeps: distinct keys, at most 1000 entries,
    counters that are not negative. *)
Definition kept (this : Cache.CacheManager T) : Prop :=
  JSMap.wf (Cache.cache this)
  /\ JSMap.size (Cache.cache this) <= 1000
  /\ 0 <= Cache.hits this
  /\ 0 <= Cache.misses this.

End Run.

Arguments OpGet {T} _ _.
Arguments OpSet {T} _ _ _ _ _.
Arguments OpDelete {T} _.
Arguments OpClear {T} _.
Arguments step {T} _ _ _.
Arguments run {T} _ _ _.
Arguments is_get {T} _.
Arguments kept {T} _.
Arguments mkSetCall {T} _ _ _ _ _.
Arguments call_key {T} _.
Arguments call_data {T} _.
Arguments call_ttl {T} _.
Arguments call_now {T} _.
Arguments call_now' {T} _.
Arguments set_each {T} _ _ _.
Arguments stored {T} _ _.

End CacheRun.

(* ================================================================== *)
(** * token-encryption.ts: local storage, hashing, random tokens *)
(* ================================================================== *)

(** The characters of a hex text as [toString('hex')] writes it. *)
Module Hex.

Definition is_digit (c : ascii) : bool :=
  let n := N_of_ascii c in
  ((48 <=? n) && (n <=? 57) || (97 <=? n) && (n <=? 102))%N.

Definition all_digits (s : string) : bool :=
  forallb is_digit (list_ascii_of_string s).

End Hex.

(** The browser's [localStorage], within its quota: a map from strings
    to strings. *)
Module Storage.

Definition t : Type := JSMap.t string.

Definition getItem (key : string) (s : t) : option string := JSMap.get key s.

Definition setItem (key value : string) (s : t) : t := JSMap.set key value s.

Definition removeItem (key : string) (s : t) : t := JSMap.delete key s.

End Storage.

Module TokenStorage.

Section Store.
Context `{NodeCrypto}.

(** [storeToken(key, token)]: [window] tells whether [typeof window] is
    not ['undefined']. *)
Definition storeToken (window : bool) (env : option string)
  (randomBytes : Z -> Buffer.t) (key token : string)
  (localStorage : Storage.t) : Storage.t :=
  if window then
    let encrypted := TokenEncryption.encrypt env randomBytes token in
    Storage.setItem key encrypted localStorage
  else localStorage.

(** [retrieveToken(key)]: a stored empty string is falsy. *)
Definition retrieveToken (window : bool) (env : option string)
  (key : string) (localStorage : Storage.t) : option string :=
  if window then
    match Storage.getItem key localStorage with
    | Some (String c stored) =>
        Some (TokenEncryption.decrypt env (String c stored))
    | _ => None
    end
  else None.

(** [removeToken(key)] *)
Definition removeToken (window : bool) (key : string)
  (localStorage : Storage.t) : Storage.t :=
  if window then Storage.removeItem key localStorage else localStorage.

(** [hashToken(token)] *)
Definition hashToken (token : string) : string :=
  Buffer.toString_hex (sha256 (utf8_encode token)).

(** [randomBytes(size)] of Node's [crypto] for an integer [size]: a
    [RangeError] below 0 and above [2^31 - 1], the bytes drawn
    otherwise. *)
Definition randomBytes_checked (randomBytes : Z -> Buffer.t) (size : Z)
  : result Buffer.t :=
  if (size <? 0) || (2 ^ 31 - 1 <? size)
  then Throw "RangeError [ERR_OUT_OF_RANGE]: The value of size is out of range."
  else Ok (randomBytes size).

(** [buf.toString('hex')] with the limit of the engine on the length of
    a string, [buffer.constants.MAX_STRING_LENGTH]: an error when the
    text of two digits a byte would be longer. *)
Definition toString_hex_checked (MAX_STRING_LENGTH : Z) (buf : Buffer.t)
  : result string :=
  if MAX_STRING_LENGTH <? 2 * Z.of_nat (List.length buf)
  then Throw "Error [ERR_STRING_TOO_LONG]: Cannot create a string longer than MAX_STRING_LENGTH characters"
  else Ok (Buffer.toString_hex buf).

(** [generateSecureToken(length)] for an integer [length]; a caller that
    omits [length] passes 32. Nothing is caught. *)
Definition generateSecureToken (MAX_STRING_LENGTH : Z)
  (randomBytes : Z -> Buffer.t) (length : Z) : result string :=
  buf <- randomBytes_checked randomBytes length ;;
  toString_hex_checked MAX_STRING_LENGTH buf.

End Store.

End TokenStorage.

(* ================================================================== *)
(** * figma-client.ts *)
(* ================================================================== *)

Module FigmaClient.

(** ** [extractFileKey] *)

Definition isAlnum (c : ascii) : bool :=
  let n := N_of_ascii c in
  ((97 <=? n) && (n <=? 122) || (65 <=? n) && (n <=? 90)
   || (48 <=? n) && (n <=? 57))%N.

(** What is left of [s] after the literal [lit], when [s] starts with it. *)
Fixpoint after (lit s : string) : option string :=
  match lit, s with
  | EmptyString, _ => Some s
  | String a lit', String b s' =>
      if Ascii.eqb a b then after lit' s' else None
  | String _ _, EmptyString => None
  end.

(** The longest run of [[a-zA-Z0-9]] at the start of [s]. *)
Fixpoint alnum_run (s : string) : string :=
  match s with
  | String c s' => if isAlnum c then String c (alnum_run s') else EmptyString
  | EmptyString => EmptyString
  end.

Definition starts_alnum (s : string) : bool :=
  match s with
  | String c _ => isAlnum c
  | EmptyString => false
  end.

Fixpoint all_alnum (s : string) : bool :=
  match s with
  | String c s' => isAlnum c && all_alnum s'
  | EmptyString => true
  end.

(** The pattern [/lit([a-zA-Z0-9]+)/] at the start of [s]: the group. *)
Definition match_here (lit s : string) : option string :=
  match after lit s with
  | Some rest =>
      match alnum_run rest with
      | EmptyString => None
      | key => Some key
      end
  | None => None
  end.

(** [url.match(/lit([a-zA-Z0-9]+)/)]: the group of the leftmost match. *)
Fixpoint search (lit s : string) : option string :=
  match match_here lit s with
  | Some key => Some key
  | None =>
      match s with
      | String _ s' => search lit s'
      | EmptyString => None
      end
  end.

Definition patterns : list string :=
  ["figma.com/file/"; "figma.com/design/"; "figma.com/proto/"].

(** [extractFileKey(url)]: the first pattern, in the order of the list,
    that matches. *)
Definition extractFileKey (url : string) : option string :=
  (fix loop (ps : list string) : option string :=
     match ps with
     | [] => None
     | pattern :: ps' =>
         match search pattern url with
         | Some key => Some key
         | None => loop ps'
         end
     end) patterns.

(** ** The client *)

Record FigmaConfig : Type := mkConfig
  { apiBaseUrl : string;
    token : option string;
    cacheEnabled : bool;
    rateLimitEnabled : bool;
    timeout : Z }.

(** The configuration of the constructor called with no argument. *)
Definition defaultConfig : FigmaConfig :=
  {| apiBaseUrl := "https://api.figma.com/v1";
     token := None;
     cacheEnabled := true;
     rateLimitEnabled := true;
     timeout := 30000 |}.

Section Client.
Context `{NodeCrypto}.

(** The payloads of the API, their size in the cache, and whether a
    payload is truthy. *)
Variable T : Type.
Variable calculateSize : T -> Z.
Variable truthy : T -> bool.

(** The network: what the request of [makeRequest] to a URL with a
    token comes to, the parsed body or the error thrown. *)
Variable http : string -> string -> result T.

Record FigmaClient : Type := mkClient
  { config : FigmaConfig;
    cache : Cache.CacheManager T }.

Definition with_cache (this : FigmaClient) (c : Cache.CacheManager T)
  : FigmaClient :=
  {| config := config this; cache := c |}.

(** [setToken(token)] *)
Definition setToken (env : option string) (randomBytes : Z -> Buffer.t)
  (token : string) (this : FigmaClient) : FigmaClient :=
  {| config :=
       {| apiBaseUrl := apiBaseUrl (config this);
          token := Some (TokenEncryption.encrypt env randomBytes token);
          cacheEnabled := cacheEnabled (config this);
          rateLimitEnabled := rateLimitEnabled (config this);
          timeout := timeout (config this) |};
     cache := cache this |}.

(** [getToken()]: an absent or empty token is falsy. *)
Definition getToken (env : option string) (this : FigmaClient)
  : result string :=
  match token (config this) with
  | Some (String c t) => Ok (TokenEncryption.decrypt env (String c t))
  | _ =>
      Throw "No Figma token configured. Please set a token using setToken()"
  end.

(** [makeRequest(endpoint)]: the token is read before the request. *)
Definition makeRequest (env : option string) (endpoint : string)
  (this : FigmaClient) : result T :=
  let url := (apiBaseUrl (config this) ++ endpoint)%string in
  token <- getToken env this ;;
  http url token.

(** The body shared by [getUser] and [getFile]: the cache is read at
    [now], and a response is stored with the clock readings [now'] and
    [now'']. *)
Definition cached_request (env : option string) (cacheKey endpoint : string)
  (ttl : Z) (now now' now'' : Z) (this : FigmaClient)
  : result T * FigmaClient :=
  let '(cached, this1) :=
    if cacheEnabled (config this) then
      let '(cached, c) := Cache.get cacheKey now (cache this) in
      (cached, with_cache this c)
    else (None, this) in
  let hit :=
    match cached with
    | Some value => if truthy value then Some value else None
    | None => None
    end in
  match hit with
  | Some value => (Ok value, this1)
  | None =>
      match makeRequest env endpoint this1 with
      | Ok response =>
          (Ok response,
           if cacheEnabled (config this1) then
             with_cache this1
               (Cache.set calculateSize cacheKey response ttl now' now''
                  (cache this1))
           else this1)
      | Throw e => (Throw e, this1)
      end
  end.

(** [getUser()] *)
Definition getUser (env : option string) (now now' now'' : Z)
  (this : FigmaClient) : result T * FigmaClient :=
  cached_request env "figma-user" "/me" 300 now now' now'' this.

(** [getFile(fileKey)] *)
Definition getFile (env : option string) (fileKey : string)
  (now now' now'' : Z) (this : FigmaClient) : result T * FigmaClient :=
  cached_request env ("figma-file-" ++ fileKey) ("/files/" ++ fileKey)
    3600 now now' now'' this.

(** [clearFileCache(fileKey)] *)
Definition clearFileCache (fileKey : string) (this : FigmaClient)
  : FigmaClient :=
  with_cache this (snd (Cache.delete ("figma-file-" ++ fileKey) (cache this))).

(** [clearAllCache()] *)
Definition clearAllCache (this : FigmaClient) : FigmaClient :=
  with_cache this (Cache.clear (Some "figma-") (cache this)).

(** [getCacheStats()] *)
Definition getCacheStats (now : Z) (heapUsed : option Z)
  (this : FigmaClient) : CacheStats.t :=
  Cache.getStats now heapUsed (cache this).

End Client.

Arguments config {T} _.
Arguments cache {T} _.
Arguments mkClient {T} _ _.
Arguments with_cache {T} _ _.
Arguments setToken {H T} _ _ _ _.
Arguments getToken {H T} _ _.
Arguments makeRequest {H T} _ _ _ _.
Arguments cached_request {H T} _ _ _ _ _ _ _ _ _ _ _.
Arguments getUser {H T} _ _ _ _ _ _ _ _.
Arguments getFile {H T} _ _ _ _ _ _ _ _ _.
Arguments clearFileCache {T} _ _.
Arguments clearAllCache {T} _.
Arguments getCacheStats {T} _ _ _.

End FigmaClient.

(* ================================================================== *)
(** * ai-provider.ts: the hash of the cache keys *)
(* ================================================================== *)

Module AIProvider.

(** [ToInt32]: an integer as a signed 32-bit integer. *)
Definition to_int32 (z : Z) : Z := (z + 2 ^ 31) mod 2 ^ 32 - 2 ^ 31.

(** One turn of the loop of [hashString] on the code unit [char]:
    [hash = ((hash << 5) - hash) + char], then [hash = hash & hash]. *)
Definition hash_step (hash char : Z) : Z :=
  let hash := (to_int32 (Z.shiftl hash 5) - hash) + char in
  to_int32 (Z.land hash hash).

(** [str.charCodeAt(i)] for every [i]. *)
Definition char_codes (str : string) : list Z :=
  map (fun c => Z.of_N (N_of_ascii c)) (list_ascii_of_string str).

(** The value of [hash] when the loop of [hashString] ends. *)
Definition hash_of (codes : list Z) : Z := fold_left hash_step codes 0.

Definition digit36 (d : Z) : ascii :=
  match String.get (Z.to_nat d) "0123456789abcdefghijklmnopqrstuvwxyz" with
  | Some c => c
  | None => "0"%char
  end.

(** The digits of a number that is not negative, in base 36, in front of
    [acc]; seven digits hold every 32-bit integer. *)
Fixpoint digits36 (fuel : nat) (n : Z) (acc : string) : string :=
  match fuel with
  | O => acc
  | S fuel' =>
      let acc' := String (digit36 (n mod 36)) acc in
      if n / 36 =? 0 then acc' else digits36 fuel' (n / 36) acc'
  end.

(** [n.toString(36)] on a 32-bit integer. *)
Definition toString36 (n : Z) : string :=
  if n <? 0 then String "-"%char (digits36 7 (- n) EmptyString)
  else digits36 7 n EmptyString.

(** The polynomial in 31 that the loop computes up to the wrap-around:
    the statement of what [hashString] hashes to. *)
Definition poly31 (codes : list Z) : Z :=
  fold_left (fun h c => 31 * h + c) codes 0.

(** The number that a text in base 36 denotes: its value and 36 to the
    number of its digits. *)
Definition undigit36 (c : ascii) : Z :=
  let n := Z.of_N (N_of_ascii c) in
  if (48 <=? n) && (n <=? 57) then n - 48
  else if (97 <=? n) && (n <=? 122) then n - 87
  else 0.

Fixpoint eval36 (s : string) : Z * Z :=
  match s with
  | EmptyString => (0, 1)
  | String c s' =>
      let '(v, w) := eval36 s' in (undigit36 c * w + v, 36 * w)
  end.

Definition value36 (s : string) : Z :=
  match s with
  | String c s' =>
      if Ascii.eqb c "-"%char then - fst (eval36 s') else fst (eval36 s)
  | EmptyString => 0
  end.

(** [hashString(str)] *)
Definition hashString (str : string) : string :=
  toString36 (hash_of (char_codes str)).

(** The cache key of [generateCode] for a prompt. *)
Definition cacheKey (prompt : string) : string :=
  "ai-code-" ++ hashString prompt.

(** ** The provider *)

Inductive Provider : Type := openai | groq.

Inductive Role : Type := system | user | assistant.

Inductive Framework : Type := react | vue | angular.

Inductive StyleFramework : Type := tailwind | css_modules | styled_components.

Record AIConfig : Type := mkAIConfig
  { provider : Provider;
    apiKey : string;
    model : string;
    temperature : option Q;
    maxTokens : option Z;
    timeout : option Z }.

Record AIMessage : Type := mkMessage
  { role : Role;
    content : string }.

Record AIRequest : Type := mkRequest
  { messages : list AIMessage;
    request_temperature : option Q;
    request_maxTokens : option Z;
    stream : option bool }.

Record Usage : Type := mkUsage
  { promptTokens : Z;
    completionTokens : Z;
    totalTokens : Z }.

Record AIResponse : Type := mkResponse
  { response_content : string;
    usage : Usage;
    response_model : string;
    finishReason : string }.

(** ** [requestsByModel]: an object literal used as a map *)

(** The property names that an object literal inherits from
    [Object.prototype]. *)
Definition prototype_names : list string :=
  ["constructor"; "hasOwnProperty"; "isPrototypeOf";
   "propertyIsEnumerable"; "toLocaleString"; "toString"; "valueOf";
   "__defineGetter__"; "__defineSetter__"; "__lookupGetter__";
   "__lookupSetter__"; "__proto__"].

(** A property of [requestsByModel]: a number, or the text that [+ 1]
    makes of a member of [Object.prototype], which is the text of the
    member [name], as the engine prints it, followed by [ones] digits
    1. *)
Inductive Count : Type :=
| Number (n : Z)
| Text (name : string) (ones : nat).

(** What [requestsByModel[name]] reads: an own property, else the
    member of that name of [Object.prototype], else [undefined]. *)
Inductive Member : Type :=
| Own (count : Count)
| Inherited (name : string)
| Undefined.

Definition read_member (name : string) (o : JSMap.t Count) : Member :=
  match JSMap.get name o with
  | Some count => Own count
  | None =>
      if existsb (String.eqb name) prototype_names then Inherited name
      else Undefined
  end.

(** [(member || 0) + 1]: a number counts up, [undefined] and 0 being
    falsy; a text, which is never empty, and an inherited function or
    object are truthy and get the digit 1 at the end of their text. *)
Definition or_zero_plus_one (member : Member) : Count :=
  match member with
  | Own (Number n) => Number (n + 1)
  | Own (Text name ones) => Text name (S ones)
  | Inherited name => Text name 1
  | Undefined => Number 1
  end.

(** [requestsByModel[name] = count]: an own property, except under
    [__proto__], whose setter ignores a value that is not an object. *)
Definition write_member (name : string) (count : Count)
  (o : JSMap.t Count) : JSMap.t Count :=
  if String.eqb name "__proto__" then o else JSMap.set name count o.

(** [AIUsageStats]: the cost and the average are exact rationals;
    [requestsByModel] is the map from the names of its own properties
    to their values, and the order in which an object lists its
    properties is not part of it. *)
Record AIUsageStats : Type := mkStats
  { totalRequests : Z;
    stats_totalTokens : Z;
    totalCost : Q;
    requestsByModel : JSMap.t Count;
    averageResponseTime : Q }.

Record AIProvider : Type := mkProvider
  { config : AIConfig;
    cache : Cache.CacheManager string;
    usageStats : AIUsageStats }.

Definition sum (l : list Z) : Z := fold_right Z.add 0 l.

(** The initial statistics, and those of [resetUsageStats()]. *)
Definition noUsage : AIUsageStats :=
  {| totalRequests := 0;
     stats_totalTokens := 0;
     totalCost := 0;
     requestsByModel := JSMap.empty;
     averageResponseTime := 0 |}.

(** [resetUsageStats()] *)
Definition resetUsageStats (this : AIProvider) : AIProvider :=
  {| config := config this; cache := cache this; usageStats := noUsage |}.

(** [framework] as a string, and [framework.toUpperCase()]. *)
Definition framework_name (f : Framework) : string :=
  match f with react => "react" | vue => "vue" | angular => "angular" end.

Definition framework_upper (f : Framework) : string :=
  match f with react => "REACT" | vue => "VUE" | angular => "ANGULAR" end.

Definition style_name (s : StyleFramework) : string :=
  match s with
  | tailwind => "tailwind"
  | css_modules => "css-modules"
  | styled_components => "styled-components"
  end.

(** The [options] of [generateCode]: each one may be left out. *)
Record CodeOptions : Type := mkOptions
  { typescript : option bool;
    styleFramework : option StyleFramework;
    responsive : option bool;
    accessibility : option bool }.

Definition or_default {A : Type} (o : option A) (d : A) : A :=
  match o with Some a => a | None => d end.

(** The end of a line of the template. *)
Definition nl : string := String (ascii_of_nat 10) EmptyString.

(** What the template of [buildCodeGenerationPrompt] puts before the
    design description, and after it. *)
Definition prompt_head (framework : Framework) : string :=
  nl ++ "Generate a " ++ framework_upper framework
     ++ " component based on this design description:" ++ nl
     ++ nl.

Definition prompt_tail (framework : Framework) (typescript : bool)
  (styleFramework : StyleFramework) (responsive accessibility : bool)
  : string :=
  nl ++ nl
  ++ "Requirements:" ++ nl
  ++ "- Framework: " ++ framework_name framework ++ nl
  ++ "- TypeScript: " ++ (if typescript then "Yes" else "No") ++ nl
  ++ "- Styling: " ++ style_name styleFramework ++ nl
  ++ "- Responsive: " ++ (if responsive then "Yes" else "No") ++ nl
  ++ "- Accessibility: "
  ++ (if accessibility then "Include ARIA labels and semantic HTML"
      else "Basic accessibility") ++ nl
  ++ nl
  ++ "Please provide:" ++ nl
  ++ "1. Clean, production-ready code" ++ nl
  ++ "2. Proper component structure" ++ nl
  ++ "3. Responsive design if requested" ++ nl
  ++ "4. Accessibility features if requested" ++ nl
  ++ "5. Comments for complex logic only" ++ nl
  ++ nl
  ++ "Return only the code without explanations." ++ nl.

(** [buildCodeGenerationPrompt(designDescription, framework, options)] *)
Definition buildCodeGenerationPrompt (designDescription : string)
  (framework : Framework) (typescript : bool)
  (styleFramework : StyleFramework) (responsive accessibility : bool)
  : string :=
  prompt_head framework ++ designDescription
  ++ prompt_tail framework typescript styleFramework responsive accessibility.

(** [updateUsageStats(response)] *)
Definition updateUsageStats (cfg : AIConfig) (response : AIResponse)
  (stats : AIUsageStats) : AIUsageStats :=
  let costPerToken :=
    match provider cfg with openai => 1 # 10000 | groq => 1 # 20000 end in
  {| totalRequests := totalRequests stats + 1;
     stats_totalTokens := stats_totalTokens stats + totalTokens (usage response);
     totalCost :=
       (totalCost stats
        + inject_Z (totalTokens (usage response)) * costPerToken)%Q;
     requestsByModel :=
       write_member (response_model response)
         (or_zero_plus_one
            (read_member (response_model response) (requestsByModel stats)))
         (requestsByModel stats);
     averageResponseTime := averageResponseTime stats |}.

Section Generate.

(** The size of a string in the cache, and [generateCompletion], which
    the two providers implement by a request; it returns a response or
    throws, and may update the statistics. *)
Variable calculateSize : string -> Z.
Variable generateCompletion :
  AIRequest -> AIUsageStats -> result AIResponse * AIUsageStats.

(** The prompt and the request of [generateCode]. *)
Definition code_prompt (designDescription : string) (framework : Framework)
  (options : CodeOptions) : string :=
  buildCodeGenerationPrompt designDescription framework
    (or_default (typescript options) true)
    (or_default (styleFramework options) tailwind)
    (or_default (responsive options) true)
    (or_default (accessibility options) true).

Definition code_request (prompt : string) : AIRequest :=
  {| messages :=
       [ {| role := system;
            content := "You are an expert frontend developer. Generate clean, production-ready code based on design descriptions." |};
         {| role := user; content := prompt |} ];
     request_temperature := Some (1 # 10);
     request_maxTokens := Some 4000;
     stream := None |}.

(** [generateCode(designDescription, framework, options)]: the cache is
    read at [now]; a response is stored with the clock readings [now']
    and [now'']. A cached empty string is falsy. *)
Definition generateCode (designDescription : string)
  (framework : Framework) (options : CodeOptions) (now now' now'' : Z)
  (this : AIProvider) : result string * AIProvider :=
  let prompt := code_prompt designDescription framework options in
  let cacheKey := cacheKey prompt in
  let '(cached, c1) := Cache.get cacheKey now (cache this) in
  match cached with
  | Some (String a code) =>
      (Ok (String a code),
       {| config := config this; cache := c1;
          usageStats := usageStats this |})
  | _ =>
      let request := code_request prompt in
      match generateCompletion request (usageStats this) with
      | (Ok response, stats1) =>
          let c2 :=
            Cache.set calculateSize cacheKey (response_content response)
              3600 now' now'' c1 in
          (Ok (response_content response),
           {| config := config this; cache := c2;
              usageStats := updateUsageStats (config this) response stats1 |})
      | (Throw e, stats1) =>
          (Throw e,
           {| config := config this; cache := c1; usageStats := stats1 |})
      end
  end.

End Generate.

End AIProvider.

(* ================================================================== *)
(** * Concrete instances, used to run the model *)
(* ================================================================== *)

(** A stand-in for Node's [crypto] that has the shape of an authenticated
    cipher: complemented bytes as ciphertext and a 16-byte checksum as
    tag. Strings are coded one byte per character. *)
Module ToyCrypto.

Definition byte_not (b : byte) : byte :=
  Buffer.byte_of_N (255 - Byte.to_N b).

Definition checksum (buf : Buffer.t) : byte :=
  Buffer.byte_of_N (fold_left (fun a b => (a + Byte.to_N b) mod 256)%N buf 0%N).

Definition digest (buf : Buffer.t) : Buffer.t := repeat (checksum buf) 32.

Definition tag (key iv plain : Buffer.t) : Buffer.t :=
  repeat (checksum (key ++ iv ++ plain)) 16.

Definition buffer_eqb (a b : Buffer.t) : bool :=
  if list_eq_dec Byte.byte_eq_dec a b then true else false.

Definition valid (key iv : Buffer.t) : bool :=
  (List.length key =? 32)%nat && (1 <=? List.length iv)%nat.

Definition seal (key iv plain : Buffer.t) : result (Buffer.t * Buffer.t) :=
  if valid key iv
  then Ok (map byte_not plain, tag key iv plain)
  else Throw "Invalid key length".

Definition unseal (key iv encrypted authTag : Buffer.t) : result Buffer.t :=
  let plain := map byte_not encrypted in
  if valid key iv && buffer_eqb authTag (tag key iv plain)
  then Ok plain
  else Throw "Unsupported state or unable to authenticate data".

Definition node : NodeCrypto :=
  {| sha256 := digest;
     gcm_encrypt := seal;
     gcm_decrypt := unseal;
     utf8_encode := list_byte_of_string;
     utf8_decode := string_of_list_byte |}.

(** A fixed outcome of [randomBytes(n)]. *)
Definition zeros (n : Z) : Buffer.t := repeat x00 (Z.to_nat n).

End ToyCrypto.

(** Caches of strings, sized as [JSON.stringify] sizes a plain string,
    and a cache filled to the capacity limit. *)
Module Sample.

Definition sizeOf (s : string) : Z := Z.of_nat (String.length s) + 2.

Definition key_of (n : nat) : string :=
  "figma-file-" ++ NilZero.string_of_uint (Nat.to_uint n).

(** [n] entries set at time 0 with the default ttl. *)
Definition filled (n : nat) : Cache.CacheManager string :=
  fold_left (fun st i => Cache.set sizeOf (key_of i) "x" 3600 0 0 st)
    (seq 0 n) Cache.new.

Definition full : Cache.CacheManager string := filled 1000.

(** One hit on a fresh cache. *)
Definition warm : Cache.CacheManager string :=
  snd (Cache.get "a" 1 (Cache.set sizeOf "a" "x" 3600 0 0 Cache.new)).

(** An entry set at time 0 with a ttl of one second. *)
Definition stale : Cache.CacheManager string :=
  Cache.set sizeOf "a" "x" 1 0 0 Cache.new.

(** 999 entries with the default ttl and one with a ttl of one second,
    all set at time 0. *)
Definition one_stale : Cache.CacheManager string :=
  Cache.set sizeOf "figma-user" "x" 1 0 0 (filled 999).

(** 1001 calls of [set] with the default ttl, one every millisecond. *)
Definition calls : list (CacheRun.set_call string) :=
  map (fun i =>
         CacheRun.mkSetCall (key_of i) "x" 3600 (Z.of_nat i) (Z.of_nat i))
    (seq 0 1001).

(** A check that the strings of a list are distinct. *)
Fixpoint distinct (l : list string) : bool :=
  match l with
  | [] => true
  | x :: l' => negb (existsb (String.eqb x) l') && distinct l'
  end.

End Sample.

(** A client and a provider to run the model on: text payloads, a
    network that answers or is down, a provider that answers or refuses. *)
Module SampleClient.

Definition sizeOf (s : string) : Z := Z.of_nat (String.length s) + 2.

Definition always (s : string) : bool := true.

Definition http_ok (url token : string) : result string :=
  Ok "{name:Test File}".

Definition http_down (url token : string) : result string :=
  Throw "Network error".

Definition client : FigmaClient.FigmaClient string :=
  @FigmaClient.setToken ToyCrypto.node string None ToyCrypto.zeros
    "figd_test_token"
    {| FigmaClient.config := FigmaClient.defaultConfig;
       FigmaClient.cache := Cache.new |}.

Definition provider : AIProvider.AIProvider :=
  {| AIProvider.config :=
       {| AIProvider.provider := AIProvider.openai;
          AIProvider.apiKey := "sk-test";
          AIProvider.model := "gpt-4o";
          AIProvider.temperature := Some (7 # 10);
          AIProvider.maxTokens := Some 2000;
          AIProvider.timeout := Some 30000 |};
     AIProvider.cache := Cache.new;
     AIProvider.usageStats := AIProvider.noUsage |}.

Definition response_of (code : string) : AIProvider.AIResponse :=
  {| AIProvider.response_content := code;
     AIProvider.usage :=
       {| AIProvider.promptTokens := 10;
          AIProvider.completionTokens := 20;
          AIProvider.totalTokens := 30 |};
     AIProvider.response_model := "gpt-4o";
     AIProvider.finishReason := "stop" |}.

Definition answer (code : string) (request : AIProvider.AIRequest)
  (stats : AIProvider.AIUsageStats)
  : result AIProvider.AIResponse * AIProvider.AIUsageStats :=
  (Ok (response_of code), stats).

Definition refuse (request : AIProvider.AIRequest)
  (stats : AIProvider.AIUsageStats)
  : result AIProvider.AIResponse * AIProvider.AIUsageStats :=
  (Throw "OpenAI API error: 500 Internal Server Error", stats).

Definition noOptions : AIProvider.CodeOptions :=
  AIProvider.mkOptions None None None None.

(** Three responses of two models. *)
Definition response_by (model : string) (tokens : Z)
  : AIProvider.AIResponse :=
  {| AIProvider.response_content := "<div/>";
     AIProvider.usage :=
       {| AIProvider.promptTokens := 10;
          AIProvider.completionTokens := tokens - 10;
          AIProvider.totalTokens := tokens |};
     AIProvider.response_model := model;
     AIProvider.finishReason := "stop" |}.

Definition responses : list AIProvider.AIResponse :=
  [response_by "gpt-4o" 30; response_by "llama3-70b-8192" 50;
   response_by "gpt-4o" 40].

(** A check that a map holds its entries in the order of their expiry. *)
Fixpoint sorted_by_expiry (c : JSMap.t (Cache.CacheEntry string)) : bool :=
  match c with
  | [] => true
  | x :: c' =>
      forallb (fun y => Cache.expires (snd x) <=? Cache.expires (snd y)) c'
      && sorted_by_expiry c'
  end.

End SampleClient.

(* ================================================================== *)
(** * Facts about [JSMap] *)
(* ================================================================== *)

Module JSMapFacts.

Section Facts.
Context {V : Type}.
Implicit Types (m : JSMap.t V) (k : string) (v : V).

Lemma get_set_same k v m : JSMap.get k (JSMap.set k v m) = Some v.
Proof.
  induction m as [|[k' v'] m IH]; simpl.
  - now rewrite String.eqb_refl.
  - destruct (String.eqb k k') eqn:E; simpl.
    + now rewrite String.eqb_refl.
    + now rewrite E.
Qed.

Lemma get_set_other k k' v m :
  k <> k' -> JSMap.get k' (JSMap.set k v m) = JSMap.get k' m.
Proof.
  intros Hne. induction m as [|[k0 v0] m IH]; simpl.
  - destruct (String.eqb k' k) eqn:E; [|reflexivity].
    apply String.eqb_eq in E. congruence.
  - destruct (String.eqb k k0) eqn:E; simpl.
    + apply String.eqb_eq in E. subst k0.
      destruct (String.eqb k' k) eqn:E'; [|reflexivity].
      apply String.eqb_eq in E'. congruence.
    + now rewrite IH.
Qed.

Lemma get_delete_same k m : JSMap.get k (JSMap.delete k m) = None.
Proof.
  induction m as [|[k' v'] m IH]; simpl; [reflexivity|].
  destruct (String.eqb k k') eqn:E; simpl; [assumption|].
  now rewrite E.
Qed.

Lemma get_delete_other k k' m :
  k <> k' -> JSMap.get k' (JSMap.delete k m) = JSMap.get k' m.
Proof.
  intros Hne. induction m as [|[k0 v0] m IH]; simpl; [reflexivity|].
  destruct (String.eqb k k0) eqn:E; simpl.
  - apply String.eqb_eq in E. subst k0.
    destruct (String.eqb k' k) eqn:E'; [|assumption].
    apply String.eqb_eq in E'. congruence.
  - now rewrite IH.
Qed.

Lemma get_In k v m : JSMap.get k m = Some v -> In (k, v) m.
Proof.
  induction m as [|[k' v'] m IH]; simpl; [discriminate|].
  destruct (String.eqb k k') eqn:E.
  - apply String.eqb_eq in E. intros [= ->]. left. now subst.
  - auto.
Qed.

Lemma get_None k m : JSMap.get k m = None <-> ~ In k (JSMap.keys m).
Proof.
  induction m as [|[k' v'] m IH]; simpl.
  - tauto.
  - destruct (String.eqb k k') eqn:E.
    + apply String.eqb_eq in E. subst. split; [discriminate|tauto].
    + apply String.eqb_neq in E. rewrite IH. split.
      * intros Hn [Heq|Hin]; [congruence|tauto].
      * tauto.
Qed.

Lemma In_get k v m : JSMap.wf m -> In (k, v) m -> JSMap.get k m = Some v.
Proof.
  unfold JSMap.wf. induction m as [|[k' v'] m IH]; simpl; [tauto|].
  intros Hnd Hin. inversion Hnd as [|? ? Hnotin Hnd']; subst.
  destruct Hin as [[= -> ->]|Hin].
  - now rewrite String.eqb_refl.
  - destruct (String.eqb k k') eqn:E; [|auto].
    apply String.eqb_eq in E. subst k'. exfalso. apply Hnotin.
    change k with (fst (k, v)). now apply in_map.
Qed.

(** A filter keeps a map well formed. *)
Lemma wf_filter (p : string * V -> bool) m :
  JSMap.wf m -> JSMap.wf (filter p m).
Proof.
  unfold JSMap.wf, JSMap.keys.
  induction m as [|x m IH]; simpl; intros Hnd; [constructor|].
  inversion Hnd as [|? ? Hnotin Hnd']; subst.
  destruct (p x); simpl; [|auto].
  constructor; [|auto].
  intros Hin. apply Hnotin. apply in_map_iff in Hin.
  destruct Hin as [y [Hy Hin]]. apply filter_In in Hin.
  rewrite <- Hy. apply in_map. tauto.
Qed.

Lemma wf_delete k m : JSMap.wf m -> JSMap.wf (JSMap.delete k m).
Proof. apply wf_filter. Qed.

Lemma keys_set k v m :
  JSMap.keys (JSMap.set k v m) =
  if JSMap.has k m then JSMap.keys m else JSMap.keys m ++ [k].
Proof.
  unfold JSMap.has.
  induction m as [|[k' v'] m IH]; simpl; [reflexivity|].
  destruct (String.eqb k k') eqn:E; simpl.
  - apply String.eqb_eq in E. now subst.
  - rewrite IH. now destruct (JSMap.get k m).
Qed.

Lemma wf_set k v m : JSMap.wf m -> JSMap.wf (JSMap.set k v m).
Proof.
  unfold JSMap.wf. intros Hnd. rewrite keys_set.
  unfold JSMap.has. destruct (JSMap.get k m) eqn:E; [assumption|].
  apply get_None in E.
  apply NoDup_rev in Hnd. rewrite <- (rev_involutive (_ ++ _)).
  apply NoDup_rev. rewrite rev_app_distr. simpl.
  constructor; [|assumption]. now rewrite <- in_rev.
Qed.

(** A new key is appended. *)
Lemma set_fresh k v m :
  JSMap.get k m = None -> JSMap.set k v m = m ++ [(k, v)].
Proof.
  induction m as [|[k' v'] m IH]; simpl; [reflexivity|].
  destruct (String.eqb k k'); [discriminate|].
  intros Hg. now rewrite IH.
Qed.

Lemma size_set k v m :
  JSMap.size (JSMap.set k v m) =
  if JSMap.has k m then JSMap.size m else JSMap.size m + 1.
Proof.
  unfold JSMap.size.
  rewrite <- (length_map fst (JSMap.set k v m)).
  change (map fst (JSMap.set k v m)) with (JSMap.keys (JSMap.set k v m)).
  rewrite keys_set. destruct (JSMap.has k m).
  - unfold JSMap.keys. now rewrite length_map.
  - unfold JSMap.keys. rewrite length_app, length_map. simpl. lia.
Qed.

(** Deleting keys one after the other is one filter. *)
Lemma delete_each_filter (ks : list string) m :
  JSMap.delete_each ks m =
  filter (fun kv => negb (existsb (String.eqb (fst kv)) ks)) m.
Proof.
  unfold JSMap.delete_each. revert m.
  induction ks as [|k ks IH]; intros m; simpl.
  - induction m as [|x m IHm]; simpl; [reflexivity|]. now rewrite <- IHm.
  - rewrite IH. unfold JSMap.delete.
    induction m as [|x m IHm]; simpl; [reflexivity|].
    rewrite (String.eqb_sym (fst x) k).
    destruct (String.eqb k (fst x)); simpl; rewrite IHm; reflexivity.
Qed.

Lemma In_delete_each (ks : list string) m (x : string * V) :
  In x (JSMap.delete_each ks m) <-> In x m /\ ~ In (fst x) ks.
Proof.
  rewrite delete_each_filter, filter_In, negb_true_iff.
  split; intros [Hin Hk]; split; try assumption.
  - intros Hks. apply not_true_iff_false in Hk. apply Hk.
    apply existsb_exists. exists (fst x). split; [assumption|].
    apply String.eqb_refl.
  - apply not_true_iff_false. intros Hex. apply Hk.
    apply existsb_exists in Hex. destruct Hex as [y [Hy Heq]].
    apply String.eqb_eq in Heq. now rewrite Heq.
Qed.

Lemma wf_delete_each (ks : list string) m :
  JSMap.wf m -> JSMap.wf (JSMap.delete_each ks m).
Proof. rewrite delete_each_filter. apply wf_filter. Qed.

(** In a well-formed map, deleting [k] removes exactly the entry that
    [get] finds. *)
Lemma delete_absent k m : JSMap.get k m = None -> JSMap.delete k m = m.
Proof.
  unfold JSMap.delete.
  induction m as [|[k' v'] m IH]; simpl; [reflexivity|].
  destruct (String.eqb k k'); [discriminate|]. simpl.
  intros Hg. now rewrite IH.
Qed.

Lemma delete_present k v m :
  JSMap.wf m -> JSMap.get k m = Some v ->
  exists m1 m2, m = m1 ++ (k, v) :: m2 /\ JSMap.delete k m = m1 ++ m2.
Proof.
  unfold JSMap.wf.
  induction m as [|[k' v'] m IH]; simpl; [discriminate|].
  intros Hnd Hg. inversion Hnd as [|? ? Hnotin Hnd']; subst.
  destruct (String.eqb k k') eqn:E.
  - apply String.eqb_eq in E. subst k'. injection Hg as ->.
    exists [], m. split; [reflexivity|].
    unfold JSMap.delete. simpl.
    apply delete_absent. now apply get_None.
  - destruct (IH Hnd' Hg) as [m1 [m2 [Hm Hd]]].
    exists ((k', v') :: m1), m2. split.
    + simpl. now rewrite Hm.
    + unfold JSMap.delete in *. simpl. rewrite ?E. simpl. now rewrite Hd.
Qed.

End Facts.

End JSMapFacts.

(* ================================================================== *)
(** * Facts about lists used below *)
(* ================================================================== *)

Module ListFacts.

Lemma Permutation_filter {A : Type} (p : A -> bool) (l l' : list A) :
  Permutation l l' -> Permutation (filter p l) (filter p l').
Proof.
  induction 1 as [|x l l' _ IH|x y l|l l' l'' _ IH1 _ IH2]; simpl.
  - constructor.
  - destruct (p x); [now constructor|assumption].
  - destruct (p x), (p y); try apply Permutation_refl. apply perm_swap.
  - now transitivity (filter p l').
Qed.

Lemma filter_none {A : Type} (p : A -> bool) (l : list A) :
  (forall x, In x l -> p x = false) -> filter p l = [].
Proof.
  induction l as [|x l IH]; simpl; intros Hp; [reflexivity|].
  rewrite (Hp x (or_introl eq_refl)). auto.
Qed.

Lemma filter_all {A : Type} (p : A -> bool) (l : list A) :
  (forall x, In x l -> p x = true) -> filter p l = l.
Proof.
  induction l as [|x l IH]; simpl; intros Hp; [reflexivity|].
  rewrite (Hp x (or_introl eq_refl)). f_equal. auto.
Qed.

(** In a sorted list every element of a prefix is below every element
    of the rest. *)
Lemma StronglySorted_app {A : Type} (R : A -> A -> Prop) (l1 l2 : list A) :
  StronglySorted R (l1 ++ l2) ->
  forall a b, In a l1 -> In b l2 -> R a b.
Proof.
  induction l1 as [|x l1 IH]; simpl; intros Hs a b Ha Hb; [contradiction|].
  inversion Hs as [|? ? Hs' Hall]; subst.
  destruct Ha as [->|Ha].
  - rewrite Forall_forall in Hall. apply Hall, in_or_app. now right.
  - now apply IH.
Qed.

Lemma NoDup_app_disjoint {A : Type} (l1 l2 : list A) :
  NoDup (l1 ++ l2) -> forall a, In a l1 -> In a l2 -> False.
Proof.
  induction l1 as [|x l1 IH]; simpl; intros Hnd a H1 H2; [contradiction|].
  inversion Hnd as [|? ? Hnotin Hnd']; subst.
  destruct H1 as [->|H1].
  - apply Hnotin, in_or_app. now right.
  - now apply (IH Hnd' a).
Qed.

End ListFacts.

(* ================================================================== *)
(** * Facts about the cache: sorting, sweeping, evicting *)
(* ================================================================== *)

Module CacheFacts.

Import Cache.

Section Facts.
Variable T : Type.
Variable calculateSize : T -> Z.

Local Abbreviation entry := (string * CacheEntry T)%type.
Implicit Types (c : JSMap.t (CacheEntry T)) (x y : entry).

Lemma insert_by_expires_perm x (l : list entry) :
  Permutation (insert_by_expires x l) (x :: l).
Proof.
  induction l as [|y l IH]; simpl; [apply Permutation_refl|].
  destruct (expires (snd x) <=? expires (snd y)).
  - apply Permutation_refl.
  - transitivity (y :: x :: l); [now constructor|apply perm_swap].
Qed.

Lemma sort_by_expires_perm (l : list entry) :
  Permutation (sort_by_expires l) l.
Proof.
  induction l as [|x l IH]; simpl; [constructor|].
  transitivity (x :: sort_by_expires l).
  - apply insert_by_expires_perm.
  - now constructor.
Qed.

Lemma insert_by_expires_sorted x (l : list entry) :
  StronglySorted le_expires l ->
  StronglySorted le_expires (insert_by_expires x l).
Proof.
  induction l as [|y l IH]; simpl; intros Hs.
  - repeat constructor.
  - inversion Hs as [|? ? Hs' Hall]; subst.
    destruct (expires (snd x) <=? expires (snd y)) eqn:E.
    + apply Z.leb_le in E. constructor; [assumption|].
      constructor; [exact E|].
      eapply Forall_impl; [|exact Hall].
      unfold le_expires. intros z Hz. lia.
    + apply Z.leb_gt in E. constructor; [auto|].
      rewrite Forall_forall in *. intros z Hz.
      apply (Permutation_in _ (insert_by_expires_perm x l)) in Hz.
      destruct Hz as [<-|Hz]; [unfold le_expires; lia|auto].
Qed.

Lemma sort_by_expires_sorted (l : list entry) :
  StronglySorted le_expires (sort_by_expires l).
Proof.
  induction l as [|x l IH]; simpl; [constructor|].
  now apply insert_by_expires_sorted.
Qed.

(** ** The expiry sweep *)

Lemma In_sweep_expired now c x :
  In x (sweep_expired now c) -> In x c /\ now <= expires (snd x).
Proof.
  unfold sweep_expired. rewrite JSMapFacts.In_delete_each.
  intros [Hin Hk]. split; [assumption|].
  destruct (Z.lt_ge_cases (expires (snd x)) now) as [Hlt|Hge]; [|assumption].
  exfalso. apply Hk. apply in_map. apply filter_In. split; [assumption|].
  now apply Z.ltb_lt.
Qed.

Lemma wf_sweep_expired now c :
  JSMap.wf c -> JSMap.wf (sweep_expired now c).
Proof. apply JSMapFacts.wf_delete_each. Qed.

(** On a well-formed map the sweep removes the expired entries and no
    other. *)
Lemma sweep_expired_filter now c :
  JSMap.wf c ->
  sweep_expired now c = filter (fun x => negb (expires (snd x) <? now)) c.
Proof.
  intros Hwf. unfold sweep_expired. rewrite JSMapFacts.delete_each_filter.
  apply filter_ext_in. intros [k e] Hin. simpl. f_equal.
  destruct (expires e <? now) eqn:E.
  - apply existsb_exists. exists k. split; [|apply String.eqb_refl].
    change k with (fst (k, e)). apply in_map. apply filter_In. now split.
  - apply not_true_iff_false. intros Hex.
    apply existsb_exists in Hex. destruct Hex as [k' [Hk' Heq]].
    apply String.eqb_eq in Heq. subst k'.
    apply in_map_iff in Hk'. destruct Hk' as [[k' e'] [Hfst Hin']].
    simpl in Hfst. subst k'. apply filter_In in Hin'. simpl in Hin'.
    destruct Hin' as [Hin' Hexp].
    apply (JSMapFacts.In_get _ _ _ Hwf) in Hin.
    apply (JSMapFacts.In_get _ _ _ Hwf) in Hin'.
    congruence.
Qed.

(** Nothing to sweep when no entry is expired. *)
Lemma sweep_expired_id now c :
  (forall x, In x c -> now <= expires (snd x)) -> sweep_expired now c = c.
Proof.
  intros Hall. unfold sweep_expired.
  rewrite (ListFacts.filter_none _ c); [reflexivity|].
  intros x Hx. apply Z.ltb_ge. auto.
Qed.

(** ** The capacity check *)

Lemma toRemove_small c : JSMap.size c <= 1000 -> toRemove c = [].
Proof.
  unfold toRemove. intros Hs.
  destruct (1000 <? JSMap.size c) eqn:E; [|reflexivity].
  apply Z.ltb_lt in E. lia.
Qed.

Lemma evict_small c : JSMap.size c <= 1000 -> evict c = c.
Proof. unfold evict. intros Hs. now rewrite toRemove_small. Qed.

Lemma toRemove_large c :
  1000 < JSMap.size c -> toRemove c = firstn 100 (sort_by_expires c).
Proof.
  unfold toRemove. intros Hs. apply Z.ltb_lt in Hs. now rewrite Hs.
Qed.

Lemma In_evict c x : In x (evict c) -> In x c.
Proof. unfold evict. rewrite JSMapFacts.In_delete_each. tauto. Qed.

Lemma wf_evict c : JSMap.wf c -> JSMap.wf (evict c).
Proof. apply JSMapFacts.wf_delete_each. Qed.

(** What is left after the eviction is the sorted list without its
    first 100 elements, up to order. *)
Lemma evict_large c :
  JSMap.wf c -> 1000 < JSMap.size c ->
  Permutation (evict c) (skipn 100 (sort_by_expires c)).
Proof.
  intros Hwf Hs. unfold evict. rewrite (toRemove_large _ Hs).
  rewrite JSMapFacts.delete_each_filter.
  set (s := sort_by_expires c).
  set (q := fun kv : entry =>
              negb (existsb (String.eqb (fst kv)) (map fst (firstn 100 s)))).
  assert (Hperm : Permutation c s)
    by (symmetry; apply sort_by_expires_perm).
  transitivity (filter q s); [now apply ListFacts.Permutation_filter|].
  assert (Hnd : NoDup (map fst (firstn 100 s) ++ map fst (skipn 100 s))).
  { rewrite <- map_app, firstn_skipn.
    eapply Permutation_NoDup; [|exact Hwf].
    now apply Permutation_map. }
  rewrite <- (firstn_skipn 100 s) at 1.
  rewrite filter_app.
  rewrite (ListFacts.filter_none q (firstn 100 s)).
  - simpl. rewrite ListFacts.filter_all; [apply Permutation_refl|].
    intros x Hx. unfold q. apply negb_true_iff, not_true_iff_false.
    intros Hex. apply existsb_exists in Hex.
    destruct Hex as [k [Hk Heq]]. apply String.eqb_eq in Heq. subst k.
    apply (ListFacts.NoDup_app_disjoint _ _ Hnd (fst x));
      [assumption|now apply in_map].
  - intros x Hx. unfold q. apply negb_false_iff.
    apply existsb_exists. exists (fst x).
    split; [now apply in_map|apply String.eqb_refl].
Qed.

(** [cleanup] is the sweep followed by the eviction. *)
Lemma cache_cleanup now (this : CacheManager T) :
  cache (cleanup now this) = evict (sweep_expired now (cache this))
  /\ hits (cleanup now this) = hits this
  /\ misses (cleanup now this) = misses this.
Proof.
  unfold cleanup, evict, toRemove, sweep_expired.
  destruct (1000 <? JSMap.size _); simpl; auto.
Qed.

(** The capacity check removes exactly 100 entries, and none of them
    expires later than an entry it keeps. *)
Lemma evict_spec c :
  JSMap.wf c -> 1000 < JSMap.size c ->
  List.length (toRemove c) = 100%nat
  /\ Permutation c (toRemove c ++ evict c)
  /\ (forall v r, In v (toRemove c) -> In r (evict c) -> le_expires v r)
  /\ JSMap.size (evict c) = JSMap.size c - 100.
Proof.
  intros Hwf Hs.
  pose proof (evict_large c Hwf Hs) as Hev.
  pose proof (sort_by_expires_perm c) as Hperm.
  pose proof (sort_by_expires_sorted c) as Hsorted.
  rewrite (toRemove_large c Hs).
  set (s := sort_by_expires c) in *.
  assert (Hlen : List.length s = List.length c)
    by now apply Permutation_length.
  assert (Hfirst : List.length (firstn 100 s) = 100%nat).
  { apply firstn_length_le. unfold JSMap.size in Hs. lia. }
  assert (Hall : Permutation c (firstn 100 s ++ evict c)).
  { transitivity s; [now symmetry|].
    rewrite <- (firstn_skipn 100 s) at 1.
    apply Permutation_app_head. now symmetry. }
  repeat split.
  - exact Hfirst.
  - exact Hall.
  - intros v r Hv Hr.
    apply (Permutation_in _ Hev) in Hr.
    rewrite <- (firstn_skipn 100 s) in Hsorted.
    exact (ListFacts.StronglySorted_app _ _ _ Hsorted v r Hv Hr).
  - apply Permutation_length in Hall. rewrite length_app, Hfirst in Hall.
    unfold JSMap.size. lia.
Qed.

End Facts.

End CacheFacts.

(* ================================================================== *)
(** * The cache against its specification *)
(* ================================================================== *)

Module CacheSpec.

Import Cache.

Section Spec.
Variable T : Type.
Variable calculateSize : T -> Z.

Implicit Types (this : CacheManager T) (key : string).

(** The map after [set]: the entry inserted, the expired entries swept,
    the capacity check applied. *)
Lemma cache_set key d ttl now now' this :
  cache (set calculateSize key d ttl now now' this)
  = evict (swept calculateSize key d ttl now now' this).
Proof. unfold set. now rewrite (proj1 (CacheFacts.cache_cleanup _ _ _)). Qed.

(** ** Well-formedness is an invariant of every operation *)

Lemma new_wf : JSMap.wf (cache (@new T)).
Proof. constructor. Qed.

Lemma get_wf key now this :
  JSMap.wf (cache this) -> JSMap.wf (cache (snd (get key now this))).
Proof.
  intros Hwf. unfold get.
  destruct (JSMap.get key (cache this)) as [e|]; [|assumption].
  destruct (isExpired e now); simpl; [|assumption].
  now apply JSMapFacts.wf_delete.
Qed.

Lemma set_wf key d ttl now now' this :
  JSMap.wf (cache this) ->
  JSMap.wf (cache (set calculateSize key d ttl now now' this)).
Proof.
  intros Hwf. rewrite cache_set.
  apply CacheFacts.wf_evict, CacheFacts.wf_sweep_expired.
  now apply JSMapFacts.wf_set.
Qed.

Lemma delete_wf key this :
  JSMap.wf (cache this) -> JSMap.wf (cache (snd (delete key this))).
Proof. intros Hwf. simpl. now apply JSMapFacts.wf_delete. Qed.

Lemma clear_wf prefix this :
  JSMap.wf (cache this) -> JSMap.wf (cache (clear prefix this)).
Proof.
  intros Hwf. unfold clear.
  destruct prefix as [[|a p]|]; simpl; try constructor.
  now apply JSMapFacts.wf_delete_each.
Qed.

(** ** Lookup after the clean-up *)

Lemma get_delete_each key (ks : list string) (c : JSMap.t (CacheEntry T)) :
  ~ In key ks -> JSMap.get key (JSMap.delete_each ks c) = JSMap.get key c.
Proof.
  unfold JSMap.delete_each. revert c.
  induction ks as [|k ks IH]; intros c Hnotin; simpl; [reflexivity|].
  rewrite IH by (intros Hin; apply Hnotin; now right).
  apply JSMapFacts.get_delete_other.
  intros ->. apply Hnotin. now left.
Qed.

(** C3. For every key whose entry has an expiry timestamp that has
    passed at the time of the call ([expires < now]), [get] returns a
    miss and removes that entry: afterwards the key is absent from the
    map, [has] is false at any time, and the map holds one entry less. *)
Theorem get_expired key entry now this :
  JSMap.wf (cache this) ->
  JSMap.get key (cache this) = Some entry ->
  expires entry < now ->
  fst (get key now this) = None
  /\ JSMap.get key (cache (snd (get key now this))) = None
  /\ ~ In key (JSMap.keys (cache (snd (get key now this))))
  /\ (forall now', has key now' (snd (get key now this)) = false)
  /\ JSMap.size (cache (snd (get key now this)))
     = JSMap.size (cache this) - 1.
Proof.
  intros Hwf Hget Hexp. unfold get. rewrite Hget.
  unfold isExpired. apply Z.ltb_lt in Hexp. rewrite Hexp. simpl.
  assert (Hnone : JSMap.get key (JSMap.delete key (cache this)) = None)
    by apply JSMapFacts.get_delete_same.
  repeat split.
  - exact Hnone.
  - now apply JSMapFacts.get_None.
  - intros now'. unfold has. simpl. now rewrite Hnone.
  - destruct (JSMapFacts.delete_present _ _ _ Hwf Hget)
      as [m1 [m2 [Hm Hd]]].
    rewrite Hd, Hm. unfold JSMap.size.
    rewrite !length_app. simpl. lia.
Qed.

(** C7. [has(k)] is true exactly when [get(k)], on the same state and
    at the same time, is not a miss, that is, exactly when the map holds
    an entry for [k] that is not expired; [has] returns the boolean only. *)
Theorem has_iff_get key now this :
  (has key now this = true <-> fst (get key now this) <> None)
  /\ (has key now this = true
      <-> exists entry,
            JSMap.get key (cache this) = Some entry
            /\ now <= expires entry
            /\ fst (get key now this) = Some (data entry)).
Proof.
  unfold has, get, isExpired.
  destruct (JSMap.get key (cache this)) as [e|]; simpl.
  - destruct (expires e <? now) eqn:E; simpl.
    + apply Z.ltb_lt in E. split; split; try congruence.
      intros [e' [[= <-] [Hle _]]]. lia.
    + apply Z.ltb_ge in E. split; split; try congruence; try discriminate.
      intros _. exists e. auto.
  - split; split; try congruence; try discriminate.
    intros [e' [Hget _]]. discriminate.
Qed.

(** C10. When [set] returns, no entry of the cache, under any key, has
    an expiry timestamp before the time at which its clean-up ran: an
    entry whose expiry had passed is gone, also under a key other than
    the one being set. *)
Theorem set_sweeps_all key d ttl now now' this :
  Forall (fun x => isExpired (snd x) now' = false)
    (cache (set calculateSize key d ttl now now' this))
  /\ (forall k' entry,
        k' <> key ->
        JSMap.get k' (cache this) = Some entry ->
        isExpired entry now' = true ->
        JSMap.get k' (cache (set calculateSize key d ttl now now' this))
        = None).
Proof.
  rewrite cache_set. split.
  - apply Forall_forall. intros x Hx.
    apply CacheFacts.In_evict in Hx.
    apply CacheFacts.In_sweep_expired in Hx. destruct Hx as [_ Hge].
    unfold isExpired. now apply Z.ltb_ge.
  - intros k' e Hne Hget Hexp.
    apply JSMapFacts.get_None. intros Hin. apply in_map_iff in Hin.
    destruct Hin as [[k0 e0] [Hk Hin]]. simpl in Hk. subst k0.
    apply CacheFacts.In_evict in Hin. unfold swept, sweep_expired in Hin.
    apply JSMapFacts.In_delete_each in Hin. destruct Hin as [_ Hkept].
    apply Hkept. simpl.
    change k' with (fst (k', e)). apply in_map. apply filter_In. split.
    + apply JSMapFacts.get_In. rewrite JSMapFacts.get_set_other; auto.
    + exact Hexp.
Qed.

(** ** [set] followed by [get] *)

Lemma get_swept key d ttl now now' this :
  JSMap.wf (cache this) ->
  now' <= now + ttl * 1000 ->
  JSMap.get key (swept calculateSize key d ttl now now' this)
  = Some {| data := d; expires := now + ttl * 1000;
            size := calculateSize d |}.
Proof.
  intros Hwf Hle. unfold swept, sweep_expired.
  set (e := {| data := d; expires := now + ttl * 1000;
               size := calculateSize d |}).
  assert (Hwf0 : JSMap.wf (JSMap.set key e (cache this)))
    by now apply JSMapFacts.wf_set.
  rewrite get_delete_each; [apply JSMapFacts.get_set_same|].
  intros Hin. apply in_map_iff in Hin.
  destruct Hin as [[k e'] [Hk Hin]]. simpl in Hk. subst k.
  apply filter_In in Hin. destruct Hin as [Hin Hexp]. simpl in Hexp.
  apply (JSMapFacts.In_get _ _ _ Hwf0) in Hin.
  rewrite JSMapFacts.get_set_same in Hin. injection Hin as <-.
  apply Z.ltb_lt in Hexp. simpl in Hexp. lia.
Qed.

(** C2, as amended. [set(k, v, ttl)] followed by [get(k)] before [ttl]
    seconds have elapsed returns [v], unless the capacity check of that
    [set] evicted the new entry itself, as one of the 100 entries with
    the smallest expiry timestamp. *)
Theorem get_after_set key d ttl now now' now'' this :
  JSMap.wf (cache this) ->
  now' <= now'' ->
  now'' - now < ttl * 1000 ->
  ~ In key (JSMap.keys (toRemove (swept calculateSize key d ttl now now' this))) ->
  fst (get key now'' (set calculateSize key d ttl now now' this)) = Some d.
Proof.
  intros Hwf Hmono Hbefore Hkept.
  unfold get. rewrite cache_set. unfold evict.
  rewrite get_delete_each by exact Hkept.
  rewrite get_swept by (assumption || lia).
  unfold isExpired. simpl.
  destruct (now + ttl * 1000 <? now'') eqn:E; [|reflexivity].
  apply Z.ltb_lt in E. lia.
Qed.

(** Below the capacity limit nothing is evicted. *)
Lemma get_after_set_below_capacity key d ttl now now' now'' this :
  JSMap.wf (cache this) ->
  JSMap.size (cache this) < 1000 ->
  now' <= now'' ->
  now'' - now < ttl * 1000 ->
  fst (get key now'' (set calculateSize key d ttl now now' this)) = Some d.
Proof.
  intros Hwf Hsize Hmono Hbefore.
  unfold get. rewrite cache_set.
  assert (Hle : JSMap.size (swept calculateSize key d ttl now now' this) <= 1000).
  { unfold swept, sweep_expired. rewrite JSMapFacts.delete_each_filter.
    match goal with
    | |- JSMap.size (filter ?p ?m) <= _ =>
        pose proof (filter_length_le p m) as Hf;
        pose proof (JSMapFacts.size_set key
          {| data := d; expires := now + ttl * 1000;
             size := calculateSize d |} (cache this)) as Hs
    end.
    destruct (JSMap.has key (cache this)); unfold JSMap.size in *; lia. }
  rewrite (CacheFacts.evict_small _ _ Hle).
  rewrite get_swept by (assumption || lia).
  unfold isExpired. simpl.
  destruct (now + ttl * 1000 <? now'') eqn:E; [|reflexivity].
  apply Z.ltb_lt in E. lia.
Qed.

(** ** What [get] changes *)

Lemma getStats_live now heapUsed this :
  CacheStats.size (getStats now heapUsed this) = fst (live now (cache this))
  /\ CacheStats.entries (getStats now heapUsed this)
     = snd (live now (cache this))
  /\ CacheStats.memoryUsage (getStats now heapUsed this)
     = match heapUsed with Some h => h | None => 0 end.
Proof.
  unfold getStats, live.
  destruct (fold_left (count_valid now) (JSMap.values (cache this)) (0, 0)).
  simpl. auto.
Qed.

(** An expired entry does not count. *)
Lemma live_expired now k e (m1 m2 : JSMap.t (CacheEntry T)) :
  isExpired e now = true ->
  live now (m1 ++ (k, e) :: m2) = live now (m1 ++ m2).
Proof.
  intros Hexp. unfold live, JSMap.values.
  rewrite !map_app, !fold_left_app. simpl.
  unfold count_valid at 2. now rewrite Hexp.
Qed.

(** The hit rate that [getStats] reports. *)
Lemma getStats_hitRate now heapUsed this :
  CacheStats.hitRate (getStats now heapUsed this)
  = if 0 <? hits this + misses this
    then Qmake (hits this) (Z.to_pos (hits this + misses this))
    else 0%Q.
Proof.
  unfold getStats.
  destruct (fold_left (count_valid now) (JSMap.values (cache this)) (0, 0)).
  reflexivity.
Qed.


(** ** The capacity limit *)

(** ** Inserting 1001 entries *)

Lemma set_all_snoc now (l : list (string * T * Z)) k d ttl this :
  set_all calculateSize now (l ++ [(k, d, ttl)]) this
  = set calculateSize k d ttl now now (set_all calculateSize now l this).
Proof. unfold set_all. now rewrite fold_left_app. Qed.

Lemma keys_entry_of now (l : list (string * T * Z)) :
  JSMap.keys (map (entry_of calculateSize now) l) = map (fun r => fst (fst r)) l.
Proof.
  unfold JSMap.keys. rewrite map_map. apply map_ext.
  now intros [[k d] ttl].
Qed.

(** Up to the limit each [set] of a new key with a ttl that is not
    negative appends its entry. *)
Lemma set_all_below now (l : list (string * T * Z)) : forall this,
  (forall x, In x (cache this) -> now <= expires (snd x)) ->
  NoDup (JSMap.keys (cache this) ++ map (fun r => fst (fst r)) l) ->
  (forall r, In r l -> 0 <= snd r) ->
  JSMap.size (cache this) + Z.of_nat (List.length l) <= 1000 ->
  cache (set_all calculateSize now l this) = cache this ++ map (entry_of calculateSize now) l.
Proof.
  induction l as [|[[k d] ttl] l IH]; intros this Hlive Hnd Httl Hsize.
  - simpl. now rewrite app_nil_r.
  - simpl in *.
    set (e := {| data := d; expires := now + ttl * 1000;
                 size := calculateSize d |}).
    assert (Hfresh : JSMap.get k (cache this) = None).
    { apply JSMapFacts.get_None. intros Hin.
      apply (ListFacts.NoDup_app_disjoint _ _ Hnd k Hin). now left. }
    assert (Hstep : cache (set calculateSize k d ttl now now this)
                    = cache this ++ [(k, e)]).
    { rewrite cache_set. unfold swept. fold e.
      rewrite (JSMapFacts.set_fresh _ _ _ Hfresh).
      rewrite CacheFacts.sweep_expired_id.
      - apply CacheFacts.evict_small. unfold JSMap.size in *.
        rewrite length_app. simpl. lia.
      - intros x Hx. apply in_app_or in Hx.
        destruct Hx as [Hx|[<-|[]]]; [auto|].
        simpl. specialize (Httl (k, d, ttl) (or_introl eq_refl)).
        simpl in Httl. lia. }
    unfold set_all in *. rewrite IH.
    + rewrite Hstep, <- app_assoc. reflexivity.
    + rewrite Hstep. intros x Hx. apply in_app_or in Hx.
      destruct Hx as [Hx|[<-|[]]]; [auto|].
      simpl. specialize (Httl (k, d, ttl) (or_introl eq_refl)).
      simpl in Httl. lia.
    + rewrite Hstep. unfold JSMap.keys in *.
      rewrite map_app, <- app_assoc. exact Hnd.
    + intros r Hr. apply Httl. now right.
    + rewrite Hstep. unfold JSMap.size in *. rewrite length_app.
      simpl. lia.
Qed.

(** Inserting 1001 entries under distinct keys, in any order, at one
    reading of the clock leaves 901 of them: the 100 removed ones expire
    no later than any entry that is left. *)
Lemma insert_1001 now (l : list (string * T * Z)) :
  NoDup (map (fun r => fst (fst r)) l) ->
  List.length l = 1001%nat ->
  (forall r, In r l -> 0 <= snd r) ->
  exists victims,
    List.length victims = 100%nat
    /\ Permutation (map (entry_of calculateSize now) l)
         (victims ++ cache (set_all calculateSize now l new))
    /\ (forall v r, In v victims -> In r (cache (set_all calculateSize now l new)) ->
          expires (snd v) <= expires (snd r))
    /\ JSMap.size (cache (set_all calculateSize now l new)) = 901.
Proof.
  intros Hnd Hlen Httl.
  destruct (exists_last (l := l)) as [l0 [[[k d] ttl] Hl]];
    [intros ->; discriminate|]. subst l.
  rewrite length_app in Hlen. simpl in Hlen.
  rewrite map_app in Hnd. simpl in Hnd.
  assert (H0 : cache (set_all calculateSize now l0 new) = map (entry_of calculateSize now) l0).
  { rewrite set_all_below; simpl.
    - reflexivity.
    - contradiction.
    - now apply NoDup_app_remove_r in Hnd.
    - intros r Hr. apply Httl, in_or_app. now left.
    - lia. }
  assert (Hswept : swept calculateSize k d ttl now now (set_all calculateSize now l0 new)
                   = map (entry_of calculateSize now) (l0 ++ [(k, d, ttl)])).
  { unfold swept. rewrite H0.
    rewrite JSMapFacts.set_fresh.
    - rewrite CacheFacts.sweep_expired_id; [now rewrite map_app|].
      intros x Hx. apply in_app_or in Hx. destruct Hx as [Hx|[<-|[]]].
      * apply in_map_iff in Hx. destruct Hx as [[[k' d'] ttl'] [<- Hr]].
        simpl. specialize (Httl (k', d', ttl')). simpl in Httl.
        assert (0 <= ttl') by (apply Httl, in_or_app; now left). lia.
      * simpl. specialize (Httl (k, d, ttl)). simpl in Httl.
        assert (0 <= ttl) by (apply Httl, in_or_app; right; now left).
        lia.
    - apply JSMapFacts.get_None. rewrite keys_entry_of. intros Hin.
      apply (ListFacts.NoDup_app_disjoint _ _ Hnd k Hin). now left. }
  assert (Hfinal : cache (set_all calculateSize now (l0 ++ [(k, d, ttl)]) new)
                   = evict (map (entry_of calculateSize now) (l0 ++ [(k, d, ttl)]))).
  { rewrite set_all_snoc, cache_set. now rewrite Hswept. }
  rewrite Hfinal.
  set (c := map (entry_of calculateSize now) (l0 ++ [(k, d, ttl)])).
  assert (Hwf : JSMap.wf c).
  { unfold JSMap.wf, c. rewrite keys_entry_of, map_app. exact Hnd. }
  assert (Hsize : JSMap.size c = 1001).
  { unfold JSMap.size, c. rewrite length_map, length_app. simpl. lia. }
  destruct (CacheFacts.evict_spec _ c Hwf) as [Hl [Hperm [Hle Hs]]];
    [lia|].
  exists (toRemove c). repeat split; try assumption. lia.
Qed.

(** ** Runs of [set] calls, each with its own clock readings *)

Lemma set_each_snoc (l : list (CacheRun.set_call T)) c this :
  CacheRun.set_each calculateSize (l ++ [c]) this
  = set calculateSize (CacheRun.call_key c) (CacheRun.call_data c)
      (CacheRun.call_ttl c) (CacheRun.call_now c) (CacheRun.call_now' c)
      (CacheRun.set_each calculateSize l this).
Proof. unfold CacheRun.set_each. now rewrite fold_left_app. Qed.

Lemma keys_stored (l : list (CacheRun.set_call T)) :
  JSMap.keys (map (CacheRun.stored calculateSize) l)
  = map CacheRun.call_key l.
Proof. unfold JSMap.keys. rewrite map_map. reflexivity. Qed.

(** The map at the capacity check when a call under a new key finds no
    entry expired and stores one that is not expired either. *)
Lemma swept_fresh c horizon this :
  (forall x, In x (cache this) -> horizon <= expires (snd x)) ->
  JSMap.get (CacheRun.call_key c) (cache this) = None ->
  CacheRun.call_now' c <= horizon
    <= expires (snd (CacheRun.stored calculateSize c)) ->
  swept calculateSize (CacheRun.call_key c) (CacheRun.call_data c)
    (CacheRun.call_ttl c) (CacheRun.call_now c) (CacheRun.call_now' c) this
  = cache this ++ [CacheRun.stored calculateSize c].
Proof.
  intros Hlive Hfresh Hc. unfold swept.
  rewrite (JSMapFacts.set_fresh _ _ _ Hfresh).
  apply CacheFacts.sweep_expired_id.
  intros x Hx. apply in_app_or in Hx.
  destruct Hx as [Hx|[<-|[]]].
  - specialize (Hlive x Hx). lia.
  - simpl in *. lia.
Qed.

(** Up to the limit, and as long as no entry expires, each [set] of a
    new key appends its entry. *)
Lemma set_each_below horizon (l : list (CacheRun.set_call T)) :
  forall this,
  (forall x, In x (cache this) -> horizon <= expires (snd x)) ->
  NoDup (JSMap.keys (cache this) ++ map CacheRun.call_key l) ->
  (forall c, In c l ->
     CacheRun.call_now' c <= horizon
       <= expires (snd (CacheRun.stored calculateSize c))) ->
  JSMap.size (cache this) + Z.of_nat (List.length l) <= 1000 ->
  cache (CacheRun.set_each calculateSize l this)
  = cache this ++ map (CacheRun.stored calculateSize) l.
Proof.
  induction l as [|c l IH]; intros this Hlive Hnd Hclock Hsize.
  - simpl. now rewrite app_nil_r.
  - simpl in Hnd, Hsize.
    assert (Hfresh : JSMap.get (CacheRun.call_key c) (cache this) = None).
    { apply JSMapFacts.get_None. intros Hin.
      apply (ListFacts.NoDup_app_disjoint _ _ Hnd _ Hin). now left. }
    assert (Hstep :
              cache (set calculateSize (CacheRun.call_key c)
                       (CacheRun.call_data c) (CacheRun.call_ttl c)
                       (CacheRun.call_now c) (CacheRun.call_now' c) this)
              = cache this ++ [CacheRun.stored calculateSize c]).
    { rewrite cache_set.
      rewrite (swept_fresh c horizon this Hlive Hfresh)
        by (apply Hclock; now left).
      apply CacheFacts.evict_small. unfold JSMap.size in *.
      rewrite length_app. simpl. lia. }
    change (CacheRun.set_each calculateSize (c :: l) this)
      with (CacheRun.set_each calculateSize l
              (set calculateSize (CacheRun.call_key c)
                 (CacheRun.call_data c) (CacheRun.call_ttl c)
                 (CacheRun.call_now c) (CacheRun.call_now' c) this)).
    rewrite IH.
    + rewrite Hstep, <- app_assoc. reflexivity.
    + rewrite Hstep. intros x Hx. apply in_app_or in Hx.
      destruct Hx as [Hx|[<-|[]]]; [auto|].
      apply (Hclock c). now left.
    + rewrite Hstep. unfold JSMap.keys in *.
      rewrite map_app, <- app_assoc. exact Hnd.
    + intros c' Hc'. apply Hclock. now right.
    + rewrite Hstep. unfold JSMap.size in *. rewrite length_app.
      simpl. lia.
Qed.

(** 1001 calls under distinct keys, none of whose entries expires while
    the calls are made: the last call finds 1001 entries at the capacity
    check, and these are the entries of the calls. *)
Lemma set_each_1001 horizon (l : list (CacheRun.set_call T)) :
  NoDup (map CacheRun.call_key l) ->
  List.length l = 1001%nat ->
  (forall c, In c l ->
     CacheRun.call_now' c <= horizon
       <= expires (snd (CacheRun.stored calculateSize c))) ->
  JSMap.wf (map (CacheRun.stored calculateSize) l)
  /\ cache (CacheRun.set_each calculateSize l new)
     = evict (map (CacheRun.stored calculateSize) l).
Proof.
  intros Hnd Hlen Hclock. split.
  { unfold JSMap.wf. now rewrite keys_stored. }
  destruct (exists_last (l := l)) as [l0 [c Hl]];
    [intros ->; discriminate|]. subst l.
  rewrite length_app in Hlen. simpl in Hlen.
  rewrite map_app in Hnd. simpl in Hnd.
  assert (H0 : cache (CacheRun.set_each calculateSize l0 new)
               = map (CacheRun.stored calculateSize) l0).
  { rewrite (set_each_below horizon); simpl.
    - reflexivity.
    - contradiction.
    - now apply NoDup_app_remove_r in Hnd.
    - intros c' Hc'. apply Hclock, in_or_app. now left.
    - lia. }
  rewrite set_each_snoc, cache_set.
  rewrite (swept_fresh c horizon).
  - now rewrite H0, map_app.
  - rewrite H0. intros x Hx. apply in_map_iff in Hx.
    destruct Hx as [c' [<- Hc']].
    apply (Hclock c'), in_or_app. now left.
  - rewrite H0. apply JSMapFacts.get_None. rewrite keys_stored.
    intros Hin.
    apply (ListFacts.NoDup_app_disjoint _ _ Hnd _ Hin). now left.
  - apply Hclock, in_or_app. right. now left.
Qed.

(** ** The capacity limit *)

(** C4, as amended. The entry count that [set] tests is the count after
    its entry is inserted and every expired entry is removed. Whenever
    that count exceeds 1000, exactly 100 entries are deleted and none of
    them expires later than an entry that is kept; none of them is
    expired, for the expired ones are gone before the test; and a cache
    that held at most 1000 entries before the [set] holds at most 1000
    after it. Whenever that count is 1000 or less, nothing else is
    deleted, also when the map held 1001 entries right after the
    insertion. In particular 1001 calls of [set] under distinct keys,
    in any order and each with its own clock readings, none of whose
    entries expires while the calls are made, leave 901 entries: the 100
    removed ones expire no later than any entry that is left. *)
Theorem capacity_eviction :
  (forall key d ttl now now' this,
     JSMap.wf (cache this) ->
     (1000 < JSMap.size (swept calculateSize key d ttl now now' this) ->
      exists victims,
        List.length victims = 100%nat
        /\ Permutation (swept calculateSize key d ttl now now' this)
             (victims ++ cache (set calculateSize key d ttl now now' this))
        /\ (forall v r,
              In v victims ->
              In r (cache (set calculateSize key d ttl now now' this)) ->
              expires (snd v) <= expires (snd r))
        /\ Forall (fun v => isExpired (snd v) now' = false) victims
        /\ JSMap.size (cache (set calculateSize key d ttl now now' this))
           = JSMap.size (swept calculateSize key d ttl now now' this) - 100
        /\ (JSMap.size (cache this) <= 1000 ->
            JSMap.size (cache (set calculateSize key d ttl now now' this))
            <= 1000))
     /\ (JSMap.size (swept calculateSize key d ttl now now' this) <= 1000 ->
         cache (set calculateSize key d ttl now now' this)
         = swept calculateSize key d ttl now now' this))
  /\ (forall (calls : list (CacheRun.set_call T)) horizon,
        NoDup (map CacheRun.call_key calls) ->
        List.length calls = 1001%nat ->
        (forall c, In c calls ->
           CacheRun.call_now' c <= horizon
             <= expires (snd (CacheRun.stored calculateSize c))) ->
        exists victims,
          List.length victims = 100%nat
          /\ Permutation (map (CacheRun.stored calculateSize) calls)
               (victims
                ++ cache (CacheRun.set_each calculateSize calls new))
          /\ (forall v r,
                In v victims ->
                In r (cache (CacheRun.set_each calculateSize calls new)) ->
                expires (snd v) <= expires (snd r))
          /\ JSMap.size (cache (CacheRun.set_each calculateSize calls new))
             = 901).
Proof.
  split.
  - intros key d ttl now now' this Hwf.
    assert (Hwf1 : JSMap.wf (swept calculateSize key d ttl now now' this)).
    { apply CacheFacts.wf_sweep_expired. now apply JSMapFacts.wf_set. }
    rewrite cache_set. split.
    + intros Hbig.
      destruct (CacheFacts.evict_spec _ _ Hwf1 Hbig)
        as [Hlen [Hperm [Hle Hsize]]].
      exists (toRemove (swept calculateSize key d ttl now now' this)).
      split; [exact Hlen|]. split; [exact Hperm|]. split; [exact Hle|].
      split; [|split; [exact Hsize|]].
      * apply Forall_forall. intros v Hv.
        assert (Hin : In v (swept calculateSize key d ttl now now' this)).
        { apply (Permutation_in _ (Permutation_sym Hperm)).
          apply in_or_app. now left. }
        apply CacheFacts.In_sweep_expired in Hin.
        unfold isExpired. apply Z.ltb_ge. tauto.
      * intros Hsmall. rewrite Hsize.
        assert (JSMap.size (swept calculateSize key d ttl now now' this)
                <= JSMap.size (cache this) + 1); [|lia].
        unfold swept, sweep_expired. rewrite JSMapFacts.delete_each_filter.
        match goal with
        | |- JSMap.size (filter ?p ?m) <= _ =>
            pose proof (filter_length_le p m) as Hf;
            pose proof (JSMapFacts.size_set key
              {| data := d; expires := now + ttl * 1000;
                 size := calculateSize d |} (cache this)) as Hs
        end.
        destruct (JSMap.has key (cache this)); unfold JSMap.size in *; lia.
    + intros Hsmall. now apply CacheFacts.evict_small.
  - intros calls horizon Hnd Hlen Hclock.
    destruct (set_each_1001 horizon calls Hnd Hlen Hclock) as [Hwf Hfinal].
    rewrite Hfinal.
    set (c := map (CacheRun.stored calculateSize) calls) in *.
    assert (Hsize : JSMap.size c = 1001).
    { unfold JSMap.size, c. rewrite length_map. lia. }
    destruct (CacheFacts.evict_spec _ c Hwf) as [Hl [Hperm [Hle Hs]]];
      [lia|].
    exists (toRemove c). repeat split; try assumption. lia.
Qed.

End Spec.

End CacheSpec.

(* ================================================================== *)
(** * The cache on concrete states *)
(* ================================================================== *)

Module CacheExamples.

Import Cache.

Lemma wf_filled (n : nat) : JSMap.wf (cache (Sample.filled n)).
Proof.
  unfold Sample.filled. generalize (seq 0 n). intros l.
  assert (H : forall st : CacheManager string,
             JSMap.wf (cache st) ->
             JSMap.wf (cache (fold_left
               (fun st i => set Sample.sizeOf (Sample.key_of i) "x" 3600 0 0 st)
               l st))).
  { induction l as [|i l IH]; intros st Hst; simpl; [assumption|].
    apply IH. now apply CacheSpec.set_wf. }
  apply H. apply CacheSpec.new_wf.
Qed.

(** Counterexample to C2 as stated, on a full cache: the new entry has
    the smallest expiry timestamp of the 1001 entries and is evicted by
    the [set] that inserts it; a [get] at the same instant misses. *)
Lemma set_then_get_misses :
  fst (get "figma-file-new" 0
         (set Sample.sizeOf "figma-file-new" "v" 1 0 0 Sample.full))
  <> Some "v".
Proof. vm_compute. discriminate. Qed.

Lemma get_after_set_witness :
  fst (get "figma-file-ABC123" 5
         (set Sample.sizeOf "figma-file-ABC123" "Test" 3600 0 0 new))
  = Some "Test".
Proof.
  apply (CacheSpec.get_after_set string Sample.sizeOf
           "figma-file-ABC123" "Test" 3600 0 0 5 new).
  - apply CacheSpec.new_wf.
  - lia.
  - lia.
  - vm_compute. tauto.
Defined.

Lemma get_expired_witness :
  fst (get "a" 1001 Sample.stale) = None
  /\ JSMap.get "a" (cache (snd (get "a" 1001 Sample.stale))) = None
  /\ ~ In "a" (JSMap.keys (cache (snd (get "a" 1001 Sample.stale))))
  /\ (forall now', has "a" now' (snd (get "a" 1001 Sample.stale)) = false)
  /\ JSMap.size (cache (snd (get "a" 1001 Sample.stale)))
     = JSMap.size (cache Sample.stale) - 1.
Proof.
  apply (CacheSpec.get_expired string "a"
           {| data := "x"; expires := 1000; size := 3 |} 1001 Sample.stale).
  - apply CacheSpec.set_wf, CacheSpec.new_wf.
  - reflexivity.
  - simpl. lia.
Defined.



Lemma distinct_NoDup (l : list string) :
  Sample.distinct l = true -> NoDup l.
Proof.
  induction l as [|x l IH]; simpl; intros H; [constructor|].
  apply andb_prop in H. destruct H as [Hx Hl].
  constructor; [|now apply IH].
  intros Hin. apply negb_true_iff in Hx.
  assert (Hex : existsb (String.eqb x) l = true).
  { apply existsb_exists. exists x. split; [exact Hin|apply String.eqb_refl]. }
  congruence.
Qed.

(** The calls of [Sample.calls] are made between time 0 and time 1000,
    and their entries expire after an hour. *)
Lemma calls_clock (c : CacheRun.set_call string) :
  In c Sample.calls ->
  CacheRun.call_now' c <= 1000
    <= expires (snd (CacheRun.stored Sample.sizeOf c)).
Proof.
  intros Hc.
  assert (Hb : forallb
                 (fun c =>
                    (CacheRun.call_now' c <=? 1000)
                    && (1000 <=? CacheRun.call_now c
                                 + CacheRun.call_ttl c * 1000))
                 Sample.calls = true) by (vm_compute; reflexivity).
  rewrite forallb_forall in Hb. specialize (Hb c Hc).
  apply andb_prop in Hb. destruct Hb as [H1 H2].
  apply Z.leb_le in H1, H2. simpl. lia.
Qed.

(** Counterexample to C4 as stated, on a cache of 999 live entries and
    one expired entry: the [set] of a new key brings the map to 1001
    entries, the sweep removes the expired one, the capacity check finds
    1000 entries and deletes nothing, so one entry is deleted and not
    the 100 with the smallest expiry timestamp. *)
Lemma set_over_capacity_evicts_none :
  JSMap.size
    (JSMap.set "figma-file-new"
       {| data := "v"; expires := 2000 + 3600 * 1000;
          size := Sample.sizeOf "v" |}
       (cache Sample.one_stale)) = 1001
  /\ JSMap.size
       (cache (set Sample.sizeOf "figma-file-new" "v" 3600 2000 2000
                 Sample.one_stale)) = 1000
  /\ ~ (exists victims,
          List.length victims = 100%nat
          /\ Permutation
               (JSMap.set "figma-file-new"
                  {| data := "v"; expires := 2000 + 3600 * 1000;
                     size := Sample.sizeOf "v" |}
                  (cache Sample.one_stale))
               (victims
                ++ cache (set Sample.sizeOf "figma-file-new" "v" 3600
                            2000 2000 Sample.one_stale))).
Proof.
  assert (H1 : JSMap.size
                 (JSMap.set "figma-file-new"
                    {| data := "v"; expires := 2000 + 3600 * 1000;
                       size := Sample.sizeOf "v" |}
                    (cache Sample.one_stale)) = 1001)
    by (vm_compute; reflexivity).
  assert (H2 : JSMap.size
                 (cache (set Sample.sizeOf "figma-file-new" "v" 3600
                           2000 2000 Sample.one_stale)) = 1000)
    by (vm_compute; reflexivity).
  assert (Hgen : forall m1 m2 : JSMap.t (CacheEntry string),
             JSMap.size m1 = 1001 -> JSMap.size m2 = 1000 ->
             ~ (exists victims,
                  List.length victims = 100%nat
                  /\ Permutation m1 (victims ++ m2))).
  { intros m1 m2 E1 E2 [victims [Hlen Hperm]].
    apply Permutation_length in Hperm.
    rewrite length_app, Hlen in Hperm.
    unfold JSMap.size in E1, E2. lia. }
  split; [exact H1|]. split; [exact H2|].
  exact (Hgen _ _ H1 H2).
Qed.

(** The 1001st entry on a full cache: 100 entries go, 901 stay; and
    1001 calls, one every millisecond, on a new cache. *)
Lemma capacity_eviction_witness :
  (exists victims,
     List.length victims = 100%nat
     /\ Permutation
          (swept Sample.sizeOf
             (Sample.key_of 1000) "x" 3600 0 0 Sample.full)
          (victims ++
           cache (set Sample.sizeOf (Sample.key_of 1000) "x" 3600 0 0
                    Sample.full))
     /\ (forall v r,
           In v victims ->
           In r (cache (set Sample.sizeOf (Sample.key_of 1000) "x" 3600 0 0
                          Sample.full)) ->
           expires (snd v) <= expires (snd r))
     /\ Forall (fun v => isExpired (snd v) 0 = false) victims
     /\ JSMap.size
          (cache (set Sample.sizeOf (Sample.key_of 1000) "x" 3600 0 0
                    Sample.full))
        = JSMap.size
            (swept Sample.sizeOf
               (Sample.key_of 1000) "x" 3600 0 0 Sample.full) - 100
     /\ (JSMap.size (cache Sample.full) <= 1000 ->
         JSMap.size
           (cache (set Sample.sizeOf (Sample.key_of 1000) "x" 3600 0 0
                     Sample.full))
         <= 1000))
  /\ (exists victims,
        List.length victims = 100%nat
        /\ Permutation (map (CacheRun.stored Sample.sizeOf) Sample.calls)
             (victims
              ++ cache (CacheRun.set_each Sample.sizeOf Sample.calls new))
        /\ (forall v r,
              In v victims ->
              In r (cache (CacheRun.set_each Sample.sizeOf Sample.calls
                             new)) ->
              expires (snd v) <= expires (snd r))
        /\ JSMap.size
             (cache (CacheRun.set_each Sample.sizeOf Sample.calls new))
           = 901).
Proof.
  split.
  - apply (proj1 (proj1 (CacheSpec.capacity_eviction string Sample.sizeOf)
                    (Sample.key_of 1000) "x" 3600 0 0 Sample.full
                    (wf_filled 1000))).
    vm_compute. reflexivity.
  - apply (proj2 (CacheSpec.capacity_eviction string Sample.sizeOf)
             Sample.calls 1000).
    + apply distinct_NoDup. vm_compute. reflexivity.
    + vm_compute. reflexivity.
    + exact calls_clock.
Defined.

(** The scenario of the specification: a value set and read back, then
    cleared by prefix. *)
Example set_get_clear :
  let st := set Sample.sizeOf "figma-file-ABC123" "Test" 3600 0 0 new in
  fst (get "figma-file-ABC123" 1 st) = Some "Test"
  /\ fst (get "figma-file-ABC123" 1 (clear (Some "figma-") st)) = None
  /\ has "figma-file-ABC123" 1 st = true.
Proof. repeat split. Qed.

End CacheExamples.

(* ================================================================== *)
(** * Facts about [Buffer]: the codecs and [subarray] *)
(* ================================================================== *)

Module BufferFacts.

Import Buffer.

Local Open Scope N_scope.

(** Arithmetic on quotients and remainders by constants. *)
Ltac euclid := zify; Z.to_euclidean_division_equations; lia.

Lemma to_N_lt (b : byte) : Byte.to_N b < 256.
Proof. pose proof (Byte.to_N_bounded b). lia. Qed.

Lemma byte_of_to_N (b : byte) : byte_of_N (Byte.to_N b) = b.
Proof.
  unfold byte_of_N. rewrite N.mod_small by apply to_N_lt.
  now rewrite Byte.of_to_N.
Qed.

(** A property of all numbers below a bound, checked by enumeration. *)
Lemma below_by_cases (bound : nat) (p : N -> bool) :
  forallb p (map N.of_nat (seq 0 bound)) = true ->
  forall n, n < N.of_nat bound -> p n = true.
Proof.
  intros Hall n Hn. rewrite forallb_forall in Hall. apply Hall.
  rewrite <- (N2Nat.id n). apply in_map. apply in_seq. lia.
Qed.

(** Lists by groups of three. *)
Lemma list_ind3 {A : Type} (P : list A -> Prop) :
  P [] -> (forall x, P [x]) -> (forall x y, P [x; y]) ->
  (forall x y z l, P l -> P (x :: y :: z :: l)) ->
  forall l, P l.
Proof.
  intros H0 H1 H2 H3 l.
  assert (H : P l /\ (forall x, P (x :: l)) /\ (forall x y, P (x :: y :: l))).
  { induction l as [|a l [IH0 [IH1 IH2]]]; repeat split; auto. }
  tauto.
Qed.

(** ** hex *)

Lemma unhex_hex_digit (n : N) : n < 16 -> unhex (hex_digit n) = Some n.
Proof.
  intros Hn.
  pose proof (below_by_cases 16
    (fun n => match unhex (hex_digit n) with
              | Some m => m =? n
              | None => false
              end) eq_refl n Hn) as H.
  simpl in H. destruct (unhex (hex_digit n)); [|discriminate].
  apply N.eqb_eq in H. now subst.
Qed.

Theorem from_hex_toString (buf : Buffer.t) :
  from_hex (toString_hex buf) = buf.
Proof.
  induction buf as [|b buf IH]; [reflexivity|].
  pose proof (to_N_lt b) as Hb.
  cbn [toString_hex from_hex].
  rewrite !unhex_hex_digit by euclid.
  rewrite IH. f_equal.
  replace (Byte.to_N b / 16 * 16 + Byte.to_N b mod 16) with (Byte.to_N b)
    by euclid.
  apply byte_of_to_N.
Qed.

(** ** base64 *)

Lemma unbase64_b64_char (n : N) :
  n < 64 ->
  unbase64 (b64_char n) = Some n /\ Ascii.eqb (b64_char n) "="%char = false.
Proof.
  intros Hn.
  pose proof (below_by_cases 64
    (fun n => match unbase64 (b64_char n) with
              | Some m => (m =? n) && negb (Ascii.eqb (b64_char n) "="%char)
              | None => false
              end) eq_refl n Hn) as H.
  simpl in H. destruct (unbase64 (b64_char n)); [|discriminate].
  apply andb_true_iff in H. destruct H as [H1 H2].
  apply N.eqb_eq in H1. apply negb_true_iff in H2. now subst.
Qed.

Lemma b64_sextets_char (n : N) (s : string) :
  n < 64 -> b64_sextets (String (b64_char n) s) = n :: b64_sextets s.
Proof.
  intros Hn. destruct (unbase64_b64_char n Hn) as [H1 H2].
  cbn [b64_sextets]. now rewrite H2, H1.
Qed.

Theorem from_base64_toString (buf : Buffer.t) :
  from_base64 (toString_base64 buf) = buf.
Proof.
  unfold from_base64.
  induction buf as [|x|x y|x y z buf IH] using list_ind3.
  - reflexivity.
  - pose proof (to_N_lt x).
    cbn [toString_base64].
    rewrite !b64_sextets_char by euclid.
    cbn [b64_sextets b64_bytes Ascii.eqb Bool.eqb]. f_equal.
    replace (Byte.to_N x / 4 * 4 + Byte.to_N x mod 4 * 16 / 16)
      with (Byte.to_N x) by euclid.
    apply byte_of_to_N.
  - pose proof (to_N_lt x). pose proof (to_N_lt y).
    cbn [toString_base64].
    rewrite !b64_sextets_char by euclid.
    cbn [b64_sextets b64_bytes Ascii.eqb Bool.eqb]. f_equal; [|f_equal].
    + replace (Byte.to_N x / 4 * 4
               + (Byte.to_N x mod 4 * 16 + Byte.to_N y / 16) / 16)
        with (Byte.to_N x) by euclid.
      apply byte_of_to_N.
    + replace ((Byte.to_N x mod 4 * 16 + Byte.to_N y / 16) mod 16 * 16
               + Byte.to_N y mod 16 * 4 / 4)
        with (Byte.to_N y) by euclid.
      apply byte_of_to_N.
  - pose proof (to_N_lt x). pose proof (to_N_lt y). pose proof (to_N_lt z).
    cbn [toString_base64].
    rewrite !b64_sextets_char by euclid.
    cbn [b64_bytes]. rewrite IH. f_equal; [|f_equal; [|f_equal]].
    + replace (Byte.to_N x / 4 * 4
               + (Byte.to_N x mod 4 * 16 + Byte.to_N y / 16) / 16)
        with (Byte.to_N x) by euclid.
      apply byte_of_to_N.
    + replace ((Byte.to_N x mod 4 * 16 + Byte.to_N y / 16) mod 16 * 16
               + (Byte.to_N y mod 16 * 4 + Byte.to_N z / 64) / 4)
        with (Byte.to_N y) by euclid.
      apply byte_of_to_N.
    + replace ((Byte.to_N y mod 16 * 4 + Byte.to_N z / 64) mod 4 * 64
               + Byte.to_N z mod 64)
        with (Byte.to_N z) by euclid.
      apply byte_of_to_N.
Qed.

(** A decoded buffer has at most three bytes for four characters. *)
Lemma b64_bytes_length (l : list N) :
  (4 * List.length (b64_bytes l) <= 3 * List.length l)%nat.
Proof.
  assert (H : forall n l, (List.length l <= n)%nat ->
              (4 * List.length (b64_bytes l) <= 3 * List.length l)%nat).
  { induction n as [|n IH]; intros [|a [|b [|c [|d l']]]] Hl;
      simpl in *; try lia.
    assert (List.length l' <= n)%nat by lia.
    specialize (IH l'). lia. }
  now apply (H (List.length l)).
Qed.

Lemma b64_sextets_length (s : string) :
  (List.length (b64_sextets s) <= String.length s)%nat.
Proof.
  induction s as [|c s IH]; simpl; [lia|].
  destruct (Ascii.eqb c "="%char); simpl; [lia|].
  destruct (unbase64 c); simpl; lia.
Qed.

Lemma from_base64_length (s : string) :
  (4 * List.length (from_base64 s) <= 3 * String.length s)%nat.
Proof.
  unfold from_base64.
  pose proof (b64_bytes_length (b64_sextets s)).
  pose proof (b64_sextets_length s). lia.
Qed.

(** ** [subarray] on [nonce || ciphertext || tag] *)

Lemma firstn_length_app {A : Type} (a l : list A) :
  firstn (List.length a) (a ++ l) = a.
Proof. induction a as [|x a IH]; simpl; [reflexivity|now rewrite IH]. Qed.

Lemma skipn_length_app {A : Type} (a l : list A) :
  skipn (List.length a) (a ++ l) = l.
Proof. induction a as [|x a IH]; simpl; auto. Qed.

Local Open Scope Z_scope.

Lemma subarray_layout (iv encrypted authTag : Buffer.t) :
  List.length iv = 12%nat -> List.length authTag = 16%nat ->
  let combined := iv ++ encrypted ++ authTag in
  subarray combined 0 (Some 12) = iv
  /\ subarray combined (-16) None = authTag
  /\ subarray combined 12 (Some (-16)) = encrypted.
Proof.
  intros Hiv Htag combined.
  assert (Hlen : Z.of_nat (List.length combined)
                 = 28 + Z.of_nat (List.length encrypted)).
  { unfold combined. rewrite !length_app. lia. }
  unfold subarray, rel_index. rewrite Hlen.
  change (0 <? 0) with false. change (12 <? 0) with false.
  change (-16 <? 0) with true. cbv iota.
  repeat split.
  - rewrite Z.min_l, Z.min_l by lia.
    change (Z.to_nat (12 - 0)) with 12%nat. change (Z.to_nat 0) with 0%nat.
    rewrite <- Hiv. apply firstn_length_app.
  - rewrite Z.max_l by lia.
    replace (Z.to_nat (28 + Z.of_nat (List.length encrypted) + -16))
      with (List.length (iv ++ encrypted)) by (rewrite length_app; lia).
    unfold combined. rewrite app_assoc, skipn_length_app.
    apply firstn_all2. lia.
  - rewrite Z.max_l, Z.min_l by lia.
    replace (Z.to_nat 12) with (List.length iv) by lia.
    unfold combined. rewrite skipn_length_app.
    replace (Z.to_nat (28 + Z.of_nat (List.length encrypted) + -16 - 12))
      with (List.length encrypted) by lia.
    apply firstn_length_app.
Qed.

End BufferFacts.

(* ================================================================== *)
(** * The token cipher against its specification *)
(* ================================================================== *)

Module TokenSpec.

Import TokenEncryption.

(** Counterexample to C9 as stated, at the threshold: a text that
    decodes to exactly 28 bytes, nonce plus tag, is not reported as
    encrypted. *)
Lemma isEncrypted_28_bytes :
  ~ (isEncrypted "AAAAAAAAAAAAAAAAAAAAAAAAAAAAAAAAAAAAAA==" = true
     <-> 28 <= Z.of_nat (List.length
                 (Buffer.from_base64
                    "AAAAAAAAAAAAAAAAAAAAAAAAAAAAAAAAAAAAAA=="))).
Proof. vm_compute. intros [_ H]. discriminate H. discriminate. Qed.

Lemma isEncrypted_iff (token : string) :
  isEncrypted token = true
  <-> 29 <= Z.of_nat (List.length (Buffer.from_base64 token)).
Proof.
  unfold isEncrypted, try_catch.
  change (IV_LENGTH + TAG_LENGTH + 1) with 29. apply Z.leb_le.
Qed.

Lemma isEncrypted_short (token : string) :
  (String.length token < 39)%nat -> isEncrypted token = false.
Proof.
  intros Hs. apply not_true_iff_false. rewrite isEncrypted_iff.
  pose proof (BufferFacts.from_base64_length token). lia.
Qed.

Section Laws.
Context `{NodeCrypto}.

(** The contract of the primitives: a SHA-256 digest has 32 bytes;
    AES-256-GCM accepts a 32-byte key with a 12-byte nonce, produces as
    many bytes as it is given and a 16-byte tag; and decryption under
    the same key and nonce, with that tag, returns the plaintext. *)
Hypothesis sha256_length :
  forall m, List.length (sha256 m) = 32%nat.
Hypothesis gcm_encrypt_ok :
  forall key iv plain,
    List.length key = 32%nat -> List.length iv = 12%nat ->
    exists c t, gcm_encrypt key iv plain = Ok (c, t).
Hypothesis gcm_encrypt_length :
  forall key iv plain c t,
    gcm_encrypt key iv plain = Ok (c, t) ->
    List.length c = List.length plain /\ List.length t = 16%nat.
Hypothesis gcm_decrypt_encrypt :
  forall key iv plain c t,
    gcm_encrypt key iv plain = Ok (c, t) ->
    gcm_decrypt key iv c t = Ok plain.
(** Every character of a string takes at least one byte. *)
Hypothesis utf8_encode_nonempty :
  forall s, s <> EmptyString -> utf8_encode s <> [].

Lemma getEncryptionKey_length (env : option string) :
  List.length (getEncryptionKey env) = 32%nat.
Proof.
  unfold getEncryptionKey. destruct env as [[|c k]|]; apply sha256_length.
Qed.

(** The bytes behind the output of [encrypt]. *)
Lemma encrypt_combined env (randomBytes : Z -> Buffer.t) token :
  List.length (randomBytes IV_LENGTH) = 12%nat ->
  exists c t,
    gcm_encrypt (getEncryptionKey env) (randomBytes IV_LENGTH)
      (utf8_encode token) = Ok (c, t)
    /\ List.length c = List.length (utf8_encode token)
    /\ List.length t = 16%nat
    /\ encrypt env randomBytes token
       = Buffer.toString_base64 (randomBytes IV_LENGTH ++ c ++ t).
Proof.
  intros Hiv.
  destruct (gcm_encrypt_ok (getEncryptionKey env) (randomBytes IV_LENGTH)
              (utf8_encode token) (getEncryptionKey_length env) Hiv)
    as [c [t Henc]].
  destruct (gcm_encrypt_length _ _ _ _ _ Henc) as [Hc Ht].
  exists c, t. repeat split; try assumption.
  unfold encrypt, encrypt_try. rewrite Henc. simpl.
  now rewrite BufferFacts.from_hex_toString, app_nil_r.
Qed.

(** C1. For every string [token] that UTF-8 represents, decrypting the
    result of encrypting [token] returns [token], when both calls see
    the same key-derivation input [env] (the environment secret, or
    none and then the fallback string). *)
Theorem decrypt_encrypt env (randomBytes : Z -> Buffer.t) token :
  List.length (randomBytes IV_LENGTH) = 12%nat ->
  utf8_decode (utf8_encode token) = token ->
  decrypt env (encrypt env randomBytes token) = token.
Proof.
  intros Hiv Hutf8.
  destruct (encrypt_combined env randomBytes token Hiv)
    as [c [t [Henc [Hc [Ht Hout]]]]].
  rewrite Hout. unfold decrypt, decrypt_try.
  rewrite BufferFacts.from_base64_toString.
  destruct (BufferFacts.subarray_layout _ c t Hiv Ht) as [H1 [H2 H3]].
  change IV_LENGTH with 12 in *. change (- TAG_LENGTH) with (-16).
  rewrite H1, H2, H3.
  rewrite (gcm_decrypt_encrypt _ _ _ _ _ Henc). simpl. exact Hutf8.
Qed.

(** C6. The output of [encrypt], decoded from base64, is the 12-byte
    nonce, then the ciphertext, then the 16-byte tag, and its length is
    the length of the plaintext, counted in bytes of its UTF-8 form,
    plus 28; for a plaintext of one-byte characters, as an access token
    is, that is its number of characters plus 28. *)
Theorem encrypt_layout env (randomBytes : Z -> Buffer.t) token :
  List.length (randomBytes IV_LENGTH) = 12%nat ->
  exists nonce ciphertext tag,
    Buffer.from_base64 (encrypt env randomBytes token)
    = nonce ++ ciphertext ++ tag
    /\ nonce = randomBytes IV_LENGTH
    /\ gcm_encrypt (getEncryptionKey env) nonce (utf8_encode token)
       = Ok (ciphertext, tag)
    /\ List.length nonce = 12%nat
    /\ List.length ciphertext = List.length (utf8_encode token)
    /\ List.length tag = 16%nat
    /\ List.length (Buffer.from_base64 (encrypt env randomBytes token))
       = (List.length (utf8_encode token) + 28)%nat
    /\ (List.length (utf8_encode token) = String.length token ->
        List.length (Buffer.from_base64 (encrypt env randomBytes token))
        = (String.length token + 28)%nat).
Proof.
  intros Hiv.
  destruct (encrypt_combined env randomBytes token Hiv)
    as [c [t [Henc [Hc [Ht Hout]]]]].
  exists (randomBytes IV_LENGTH), c, t.
  rewrite Hout, BufferFacts.from_base64_toString.
  repeat split; try assumption.
  - rewrite !length_app. lia.
  - intros Hascii. rewrite !length_app. lia.
Qed.

(** [decrypt] in full: the decoded plaintext when the cipher accepts
    the sliced parts, the input itself when it throws. *)
Lemma decrypt_cases env encryptedToken :
  decrypt env encryptedToken
  = let combined := Buffer.from_base64 encryptedToken in
    match gcm_decrypt (getEncryptionKey env)
            (Buffer.subarray combined 0 (Some IV_LENGTH))
            (Buffer.subarray combined IV_LENGTH (Some (- TAG_LENGTH)))
            (Buffer.subarray combined (- TAG_LENGTH) None)
    with
    | Ok plain => utf8_decode plain
    | Throw _ => encryptedToken
    end.
Proof.
  unfold decrypt, decrypt_try. cbv zeta.
  now destruct (gcm_decrypt _ _ _ _).
Qed.

(** C5. Whenever the [try] block of [decrypt] throws, whatever the
    error, [decrypt] returns its input unchanged; the only step that
    can throw is the cipher, on the parts sliced from the decoded
    input. *)
Theorem decrypt_failure env encryptedToken error :
  decrypt_try env encryptedToken = Throw error ->
  decrypt env encryptedToken = encryptedToken
  /\ let combined := Buffer.from_base64 encryptedToken in
     gcm_decrypt (getEncryptionKey env)
       (Buffer.subarray combined 0 (Some IV_LENGTH))
       (Buffer.subarray combined IV_LENGTH (Some (- TAG_LENGTH)))
       (Buffer.subarray combined (- TAG_LENGTH) None)
     = Throw error.
Proof.
  intros Hthrow. unfold decrypt. rewrite Hthrow. split; [reflexivity|].
  unfold decrypt_try in Hthrow. cbv zeta in *.
  destruct (gcm_decrypt _ _ _ _); simpl in Hthrow; [discriminate|].
  now injection Hthrow as ->.
Qed.

(** C9, as amended. [isEncrypted(value)] decodes [value] as base64 and
    returns true exactly when the decoded length is at least 29 bytes,
    one more than nonce plus tag; so it is true for the output of
    [encrypt] on a non-empty input and false for a string of fewer than
    39 characters, base64 or not. *)
Theorem isEncrypted_spec :
  (forall token,
     isEncrypted token = true
     <-> 29 <= Z.of_nat (List.length (Buffer.from_base64 token)))
  /\ (forall env (randomBytes : Z -> Buffer.t) token,
        List.length (randomBytes IV_LENGTH) = 12%nat ->
        token <> EmptyString ->
        isEncrypted (encrypt env randomBytes token) = true)
  /\ (forall token,
        (String.length token < 39)%nat -> isEncrypted token = false).
Proof.
  split; [exact isEncrypted_iff|]. split; [|exact isEncrypted_short].
  intros env randomBytes token Hiv Hne.
  destruct (encrypt_combined env randomBytes token Hiv)
    as [c [t [Henc [Hc [Ht Hout]]]]].
  apply isEncrypted_iff.
  rewrite Hout, BufferFacts.from_base64_toString, !length_app.
  apply utf8_encode_nonempty in Hne.
  destruct (utf8_encode token); [contradiction|]. simpl in Hc. lia.
Qed.

End Laws.

End TokenSpec.

(* ================================================================== *)
(** * The token cipher on a concrete instance *)
(* ================================================================== *)

Module TokenExamples.

Import TokenEncryption.

Lemma byte_not_involutive (b : byte) :
  ToyCrypto.byte_not (ToyCrypto.byte_not b) = b.
Proof. destruct b; reflexivity. Qed.

Lemma toy_sha256_length (m : Buffer.t) :
  List.length (@sha256 ToyCrypto.node m) = 32%nat.
Proof. apply repeat_length. Qed.

Lemma toy_gcm_encrypt_ok (key iv plain : Buffer.t) :
  List.length key = 32%nat -> List.length iv = 12%nat ->
  exists c t, @gcm_encrypt ToyCrypto.node key iv plain = Ok (c, t).
Proof.
  intros Hk Hiv. simpl. unfold ToyCrypto.seal, ToyCrypto.valid.
  rewrite Hk, Hiv. simpl. eauto.
Qed.

Lemma toy_gcm_encrypt_length (key iv plain c t : Buffer.t) :
  @gcm_encrypt ToyCrypto.node key iv plain = Ok (c, t) ->
  List.length c = List.length plain /\ List.length t = 16%nat.
Proof.
  simpl. unfold ToyCrypto.seal.
  destruct (ToyCrypto.valid key iv); [|discriminate].
  intros [= <- <-]. split; [apply length_map|apply repeat_length].
Qed.

Lemma toy_gcm_decrypt_encrypt (key iv plain c t : Buffer.t) :
  @gcm_encrypt ToyCrypto.node key iv plain = Ok (c, t) ->
  @gcm_decrypt ToyCrypto.node key iv c t = Ok plain.
Proof.
  simpl. unfold ToyCrypto.seal, ToyCrypto.unseal.
  destruct (ToyCrypto.valid key iv); [|discriminate].
  intros [= <- <-]. rewrite map_map.
  rewrite (map_ext _ (fun b => b) byte_not_involutive), map_id.
  unfold ToyCrypto.buffer_eqb.
  destruct (list_eq_dec Byte.byte_eq_dec _ _); [reflexivity|congruence].
Qed.

Lemma toy_utf8_encode_nonempty (s : string) :
  s <> EmptyString -> @utf8_encode ToyCrypto.node s <> [].
Proof. destruct s; [congruence|discriminate]. Qed.

Lemma decrypt_encrypt_witness :
  @decrypt ToyCrypto.node None
    (@encrypt ToyCrypto.node None ToyCrypto.zeros "figd_abc123")
  = "figd_abc123".
Proof.
  apply (@TokenSpec.decrypt_encrypt ToyCrypto.node
           toy_sha256_length toy_gcm_encrypt_ok toy_gcm_encrypt_length
           toy_gcm_decrypt_encrypt None ToyCrypto.zeros "figd_abc123").
  - reflexivity.
  - reflexivity.
Defined.

Lemma encrypt_layout_witness :
  exists nonce ciphertext tag,
    Buffer.from_base64
      (@encrypt ToyCrypto.node None ToyCrypto.zeros "figd_abc123")
    = nonce ++ ciphertext ++ tag
    /\ nonce = ToyCrypto.zeros IV_LENGTH
    /\ @gcm_encrypt ToyCrypto.node (@getEncryptionKey ToyCrypto.node None)
         nonce (@utf8_encode ToyCrypto.node "figd_abc123")
       = Ok (ciphertext, tag)
    /\ List.length nonce = 12%nat
    /\ List.length ciphertext
       = List.length (@utf8_encode ToyCrypto.node "figd_abc123")
    /\ List.length tag = 16%nat
    /\ List.length
         (Buffer.from_base64
            (@encrypt ToyCrypto.node None ToyCrypto.zeros "figd_abc123"))
       = (List.length (@utf8_encode ToyCrypto.node "figd_abc123") + 28)%nat
    /\ (List.length (@utf8_encode ToyCrypto.node "figd_abc123")
        = String.length "figd_abc123" ->
        List.length
          (Buffer.from_base64
             (@encrypt ToyCrypto.node None ToyCrypto.zeros "figd_abc123"))
        = (String.length "figd_abc123" + 28)%nat).
Proof.
  apply (@TokenSpec.encrypt_layout ToyCrypto.node
           toy_sha256_length toy_gcm_encrypt_ok toy_gcm_encrypt_length
           None ToyCrypto.zeros "figd_abc123").
  reflexivity.
Defined.

(** A text that is no ciphertext: the cipher rejects it and [decrypt]
    hands it back. *)
Lemma decrypt_failure_witness :
  @decrypt ToyCrypto.node None "not-a-ciphertext" = "not-a-ciphertext"
  /\ let combined := Buffer.from_base64 "not-a-ciphertext" in
     @gcm_decrypt ToyCrypto.node (@getEncryptionKey ToyCrypto.node None)
       (Buffer.subarray combined 0 (Some IV_LENGTH))
       (Buffer.subarray combined IV_LENGTH (Some (- TAG_LENGTH)))
       (Buffer.subarray combined (- TAG_LENGTH) None)
     = Throw "Unsupported state or unable to authenticate data".
Proof.
  apply (@TokenSpec.decrypt_failure ToyCrypto.node None "not-a-ciphertext"
           "Unsupported state or unable to authenticate data").
  vm_compute. reflexivity.
Defined.

Lemma isEncrypted_spec_witness :
  (forall token,
     isEncrypted token = true
     <-> 29 <= Z.of_nat (List.length (Buffer.from_base64 token)))
  /\ (forall env (randomBytes : Z -> Buffer.t) token,
        List.length (randomBytes IV_LENGTH) = 12%nat ->
        token <> EmptyString ->
        isEncrypted (@encrypt ToyCrypto.node env randomBytes token) = true)
  /\ (forall token,
        (String.length token < 39)%nat -> isEncrypted token = false).
Proof.
  exact (@TokenSpec.isEncrypted_spec ToyCrypto.node
           toy_sha256_length toy_gcm_encrypt_ok toy_gcm_encrypt_length
           toy_utf8_encode_nonempty).
Defined.

(** The scenarios of the specification, run on the instance. *)
Example isEncrypted_token : isEncrypted "figd_abc123" = false.
Proof. reflexivity. Qed.

Example isEncrypted_output :
  isEncrypted (@encrypt ToyCrypto.node None ToyCrypto.zeros "figd_abc123")
  = true.
Proof. reflexivity. Qed.

End TokenExamples.

(* ================================================================== *)
(** * More of the cache: [delete], [clear], runs, statistics *)
(* ================================================================== *)

Module CacheMore.

Import Cache.

Section More.
Variable T : Type.
Variable calculateSize : T -> Z.

Implicit Types (this : CacheManager T) (key : string).

(** Lookup after a deletion of several keys. *)
Lemma get_delete_each_cases {V : Type} key (ks : list string)
  (m : JSMap.t V) :
  JSMap.get key (JSMap.delete_each ks m)
  = if existsb (String.eqb key) ks then None else JSMap.get key m.
Proof.
  unfold JSMap.delete_each. revert m.
  induction ks as [|k ks IH]; intros m; simpl; [reflexivity|].
  rewrite IH. destruct (String.eqb key k) eqn:E; simpl.
  - apply String.eqb_eq in E. subst k.
    rewrite JSMapFacts.get_delete_same. now destruct (existsb _ ks).
  - apply String.eqb_neq in E.
    rewrite JSMapFacts.get_delete_other by congruence. reflexivity.
Qed.

Lemma get_after_clear prefix key this :
  JSMap.get key (cache (clear prefix this))
  = match prefix with
    | Some p =>
        if String.prefix p key then None else JSMap.get key (cache this)
    | None => None
    end.
Proof.
  destruct prefix as [[|a p]|]; [simpl; now destruct key| |reflexivity].
  unfold clear. cbn [cache hits misses].
  rewrite get_delete_each_cases.
  destruct (String.prefix (String a p) key) eqn:Hp.
  - destruct (existsb _ _) eqn:Hex; [reflexivity|].
    apply JSMapFacts.get_None. intros Hin.
    apply not_true_iff_false in Hex. apply Hex.
    apply existsb_exists. exists key. split; [|apply String.eqb_refl].
    apply filter_In. split; assumption.
  - destruct (existsb _ _) eqn:Hex; [|reflexivity].
    apply existsb_exists in Hex. destruct Hex as [k [Hk Heq]].
    apply String.eqb_eq in Heq. subst k.
    apply filter_In in Hk. destruct Hk as [_ Hk]. congruence.
Qed.

(** X1. [clear(prefix)] drops every key that starts with [prefix] and
    leaves the entry of every other key as it was; without a prefix, or
    with the empty one, no key is left. The counters are not reset. *)
Theorem clear_prefix prefix key this :
  JSMap.get key (cache (clear prefix this))
  = match prefix with
    | Some p =>
        if String.prefix p key then None else JSMap.get key (cache this)
    | None => None
    end
  /\ hits (clear prefix this) = hits this
  /\ misses (clear prefix this) = misses this.
Proof.
  split; [apply get_after_clear|].
  destruct prefix as [[|a p]|]; simpl; auto.
Qed.

(** X2. [delete(key)] returns true exactly when the map holds an entry
    for [key], expired or not, so whenever [has(key)] is true; afterwards
    the key is absent, [has(key)] is false, and every other key and the
    counters are as before. *)
Theorem delete_removes key this :
  (fst (delete key this) = true <-> In key (JSMap.keys (cache this)))
  /\ (forall now, has key now this = true -> fst (delete key this) = true)
  /\ JSMap.get key (cache (snd (delete key this))) = None
  /\ (forall now, has key now (snd (delete key this)) = false)
  /\ (forall k', k' <> key ->
        JSMap.get k' (cache (snd (delete key this)))
        = JSMap.get k' (cache this))
  /\ hits (snd (delete key this)) = hits this
  /\ misses (snd (delete key this)) = misses this.
Proof.
  unfold delete, has, JSMap.has. simpl.
  pose proof (JSMapFacts.get_None key (cache this)) as Hnone.
  split; [|split; [|split; [|split; [|split]]]]; auto.
  - destruct (JSMap.get key (cache this)); split; try discriminate; auto.
    + intros _. destruct (in_dec string_dec key (JSMap.keys (cache this)))
        as [Hin|Hnin]; [assumption|].
      apply Hnone in Hnin. discriminate.
    + intros Hin. exfalso. now apply (proj1 Hnone).
  - intros now. destruct (JSMap.get key (cache this)); [auto|discriminate].
  - apply JSMapFacts.get_delete_same.
  - intros now. now rewrite JSMapFacts.get_delete_same.
  - intros k' Hne. apply JSMapFacts.get_delete_other. congruence.
Qed.

(** X6. After [set(key, data, ttl)] the map holds for [key] the entry
    just built or none at all, so a later [get(key)] returns [data] or
    misses: it never returns a value stored earlier. *)
Theorem set_overwrites key d ttl now now' this :
  (JSMap.get key (cache (set calculateSize key d ttl now now' this))
   = Some {| data := d; expires := now + ttl * 1000;
             size := calculateSize d |}
   \/ JSMap.get key (cache (set calculateSize key d ttl now now' this))
      = None)
  /\ (forall now'',
        fst (get key now'' (set calculateSize key d ttl now now' this))
        = Some d
        \/ fst (get key now'' (set calculateSize key d ttl now now' this))
           = None).
Proof.
  assert (Hget :
    JSMap.get key (cache (set calculateSize key d ttl now now' this))
    = Some {| data := d; expires := now + ttl * 1000;
              size := calculateSize d |}
    \/ JSMap.get key (cache (set calculateSize key d ttl now now' this))
       = None).
  { rewrite CacheSpec.cache_set. unfold evict, swept, sweep_expired.
    rewrite !get_delete_each_cases, JSMapFacts.get_set_same.
    destruct (existsb _ _); [now right|].
    destruct (existsb _ _); [now right|now left]. }
  split; [exact Hget|].
  intros now''. unfold get.
  destruct Hget as [-> | ->]; [|now right].
  destruct (isExpired _ now''); [now right|now left].
Qed.

(** ** Runs of operations *)

Lemma size_filter_le {V : Type} (p : string * V -> bool) (m : JSMap.t V) :
  JSMap.size (filter p m) <= JSMap.size m.
Proof.
  unfold JSMap.size. pose proof (filter_length_le p m). lia.
Qed.

Lemma size_delete_each_le {V : Type} (ks : list string) (m : JSMap.t V) :
  JSMap.size (JSMap.delete_each ks m) <= JSMap.size m.
Proof. rewrite JSMapFacts.delete_each_filter. apply size_filter_le. Qed.

Lemma set_counters key d ttl now now' this :
  hits (set calculateSize key d ttl now now' this) = hits this
  /\ misses (set calculateSize key d ttl now now' this) = misses this.
Proof.
  unfold set.
  destruct (CacheFacts.cache_cleanup T now'
              {| cache := JSMap.set key
                   {| data := d; expires := now + ttl * 1000;
                      size := calculateSize d |} (cache this);
                 hits := hits this; misses := misses this |})
    as [_ [Hh Hm]].
  now rewrite Hh, Hm.
Qed.

Lemma set_size_le key d ttl now now' this :
  JSMap.wf (cache this) -> JSMap.size (cache this) <= 1000 ->
  JSMap.size (cache (set calculateSize key d ttl now now' this)) <= 1000.
Proof.
  intros Hwf Hsize. rewrite CacheSpec.cache_set.
  set (c1 := swept calculateSize key d ttl now now' this).
  assert (Hc1 : JSMap.size c1 <= JSMap.size (cache this) + 1).
  { unfold c1, swept, sweep_expired.
    etransitivity; [apply size_delete_each_le|].
    rewrite JSMapFacts.size_set. destruct (JSMap.has key (cache this)); lia. }
  destruct (Z.le_gt_cases (JSMap.size c1) 1000) as [Hle|Hgt].
  - now rewrite CacheFacts.evict_small.
  - assert (Hwf1 : JSMap.wf c1).
    { apply CacheFacts.wf_sweep_expired. now apply JSMapFacts.wf_set. }
    destruct (CacheFacts.evict_spec T c1 Hwf1) as [_ [_ [_ Hs]]]; lia.
Qed.

(** A miss of [has] is a miss of [get], and [get] does not grow the map. *)
Lemma cache_get_miss key now (c : CacheManager T) :
  has key now c = false -> fst (get key now c) = None.
Proof.
  unfold has, get.
  destruct (JSMap.get key (cache c)) as [e|]; [|reflexivity].
  destruct (isExpired e now); [reflexivity|discriminate].
Qed.

Lemma cache_get_size key now (c : CacheManager T) :
  JSMap.size (cache (snd (get key now c)))
  <= JSMap.size (cache c).
Proof.
  unfold get.
  destruct (JSMap.get key (cache c)) as [e|]; simpl; [|lia].
  destruct (isExpired e now); simpl; [|lia].
  apply size_filter_le.
Qed.

Lemma step_kept (o : CacheRun.op T) this :
  CacheRun.kept this -> CacheRun.kept (CacheRun.step calculateSize this o).
Proof.
  intros [Hwf [Hsize [Hh Hm]]]. destruct o as [k now|k d ttl now now'|k|p].
  - simpl. split; [now apply CacheSpec.get_wf|].
    unfold get. destruct (JSMap.get k (cache this)) as [e|]; simpl.
    + destruct (isExpired e now); simpl; repeat split; try lia.
      etransitivity; [apply size_filter_le|assumption].
    + repeat split; lia.
  - simpl. destruct (set_counters k d ttl now now' this) as [Eh Em].
    split; [now apply CacheSpec.set_wf|].
    split; [now apply set_size_le|]. rewrite Eh, Em. auto.
  - simpl. split; [now apply JSMapFacts.wf_delete|].
    repeat split; try assumption.
    etransitivity; [apply size_filter_le|assumption].
  - simpl. split; [now apply CacheSpec.clear_wf|].
    destruct p as [[|a p]|]; simpl; repeat split;
      try assumption; try (unfold JSMap.size; simpl; lia).
    etransitivity; [apply size_delete_each_le|assumption].
Qed.

Lemma run_kept (ops : list (CacheRun.op T)) : forall this,
  CacheRun.kept this -> CacheRun.kept (CacheRun.run calculateSize ops this).
Proof.
  induction ops as [|o ops IH]; intros this Hk; [assumption|].
  change (CacheRun.run calculateSize (o :: ops) this)
    with (CacheRun.run calculateSize ops (CacheRun.step calculateSize this o)).
  apply IH. now apply step_kept.
Qed.

Lemma new_kept : CacheRun.kept (@new T).
Proof.
  repeat split; simpl; try lia; [constructor|unfold JSMap.size; simpl; lia].
Qed.

(** X3. Whatever calls are made on a new cache, with whatever clock
    readings, its keys stay distinct and it never holds more than 1000
    entries when a call returns. *)
Theorem run_capacity (ops : list (CacheRun.op T)) :
  JSMap.wf (cache (CacheRun.run calculateSize ops new))
  /\ JSMap.size (cache (CacheRun.run calculateSize ops new)) <= 1000.
Proof.
  destruct (run_kept ops new new_kept) as [Hwf [Hsize _]]. now split.
Qed.

Lemma step_counters (o : CacheRun.op T) this :
  hits (CacheRun.step calculateSize this o)
  + misses (CacheRun.step calculateSize this o)
  = hits this + misses this + (if CacheRun.is_get o then 1 else 0).
Proof.
  destruct o as [k now|k d ttl now now'|k|p]; simpl.
  - unfold get. destruct (JSMap.get k (cache this)) as [e|]; simpl;
      [destruct (isExpired e now); simpl|]; lia.
  - destruct (set_counters k d ttl now now' this) as [-> ->]. lia.
  - lia.
  - destruct p as [[|a p]|]; simpl; lia.
Qed.

Lemma run_counters (ops : list (CacheRun.op T)) : forall this,
  hits (CacheRun.run calculateSize ops this)
  + misses (CacheRun.run calculateSize ops this)
  = hits this + misses this
    + Z.of_nat (List.length (filter CacheRun.is_get ops)).
Proof.
  induction ops as [|o ops IH]; intros this; [simpl; lia|].
  change (CacheRun.run calculateSize (o :: ops) this)
    with (CacheRun.run calculateSize ops (CacheRun.step calculateSize this o)).
  rewrite IH, step_counters. cbn [filter].
  destruct (CacheRun.is_get o); cbn [List.length]; lia.
Qed.

(** X4. On a cache reached from a new one, the hits and the misses add
    up to the number of [get] calls made, no other call counts, and the
    hit rate that [getStats] reports lies between 0 and 1; it is 0 as
    long as no [get] was made. *)
Theorem hitRate_bounds (ops : list (CacheRun.op T)) now heapUsed :
  hits (CacheRun.run calculateSize ops new)
  + misses (CacheRun.run calculateSize ops new)
  = Z.of_nat (List.length (filter CacheRun.is_get ops))
  /\ (0 <= CacheStats.hitRate
             (getStats now heapUsed (CacheRun.run calculateSize ops new)))%Q
  /\ (CacheStats.hitRate
        (getStats now heapUsed (CacheRun.run calculateSize ops new)) <= 1)%Q
  /\ (filter CacheRun.is_get ops = [] ->
      CacheStats.hitRate
        (getStats now heapUsed (CacheRun.run calculateSize ops new)) = 0%Q).
Proof.
  pose proof (run_counters ops new) as Hsum. simpl in Hsum.
  destruct (run_kept ops new new_kept) as [_ [_ [Hh Hm]]].
  set (st := CacheRun.run calculateSize ops new) in *.
  split; [lia|].
  assert (Hrate : CacheStats.hitRate (getStats now heapUsed st)
                  = if 0 <? hits st + misses st
                    then Qmake (hits st) (Z.to_pos (hits st + misses st))
                    else 0%Q).
  { unfold getStats.
    destruct (fold_left (count_valid now) (JSMap.values (cache st)) (0, 0)).
    reflexivity. }
  rewrite Hrate.
  destruct (0 <? hits st + misses st) eqn:E.
  - apply Z.ltb_lt in E. repeat split.
    + unfold Qle. simpl. lia.
    + unfold Qle. simpl. rewrite Z2Pos.id by lia. lia.
    + intros Hnone. rewrite Hnone in Hsum. simpl in Hsum. lia.
  - repeat split; unfold Qle; simpl; lia.
Qed.

(** ** The statistics and [has] *)

Lemma fold_count_valid now (vs : list (CacheEntry T)) : forall a b,
  fold_left (count_valid now) vs (a, b)
  = (a + fold_right Z.add 0
           (map size (filter (fun e => negb (isExpired e now)) vs)),
     b + Z.of_nat
           (List.length (filter (fun e => negb (isExpired e now)) vs))).
Proof.
  induction vs as [|e vs IH]; intros a b; simpl.
  - f_equal; lia.
  - unfold count_valid at 2. destruct (negb (isExpired e now)); simpl.
    + rewrite IH. f_equal; lia.
    + apply IH.
Qed.

Lemma live_by_key now (h : string -> bool) (c : JSMap.t (CacheEntry T)) :
  (forall x, In x c -> h (fst x) = negb (isExpired (snd x) now)) ->
  Z.of_nat (List.length
              (filter (fun e => negb (isExpired e now)) (JSMap.values c)))
  = Z.of_nat (List.length (filter h (JSMap.keys c)))
  /\ fold_right Z.add 0
       (map size (filter (fun e => negb (isExpired e now)) (JSMap.values c)))
     = fold_right Z.add 0
         (map (fun x => size (snd x)) (filter (fun x => h (fst x)) c))
  /\ Z.of_nat (List.length
                 (filter (fun e => negb (isExpired e now)) (JSMap.values c)))
     <= JSMap.size c.
Proof.
  unfold JSMap.values, JSMap.keys, JSMap.size. intros Hh.
  induction c as [|[k e] c IH]; simpl; [repeat split; lia|].
  pose proof (Hh (k, e) (or_introl eq_refl)) as Hk. simpl in Hk.
  rewrite Hk.
  destruct IH as [IH1 [IH2 IH3]].
  { intros x Hx. apply Hh. now right. }
  destruct (negb (isExpired e now)); simpl; repeat split; lia.
Qed.


(** ** Eviction when expiry follows insertion *)

Lemma sort_by_expires_sorted_id (l : list (string * CacheEntry T)) :
  StronglySorted le_expires l -> sort_by_expires l = l.
Proof.
  induction l as [|x l IH]; intros Hs; [reflexivity|].
  inversion Hs as [|? ? Hs' Hall]; subst. simpl. rewrite (IH Hs').
  destruct l as [|y l]; [reflexivity|]. simpl.
  inversion Hall as [|? ? Hxy _]; subst. unfold le_expires in Hxy.
  apply Z.leb_le in Hxy. now rewrite Hxy.
Qed.

Lemma StronglySorted_snoc (l : list (string * CacheEntry T)) x :
  StronglySorted le_expires l -> Forall (fun y => le_expires y x) l ->
  StronglySorted le_expires (l ++ [x]).
Proof.
  induction l as [|y l IH]; intros Hs Hall; simpl.
  - repeat constructor.
  - inversion Hs as [|? ? Hs' Hy]; subst.
    inversion Hall as [|? ? Hyx Hall']; subst.
    constructor; [now apply IH|].
    apply Forall_app. split; [assumption|]. now constructor.
Qed.

Lemma evict_sorted (c : JSMap.t (CacheEntry T)) :
  JSMap.wf c -> 1000 < JSMap.size c -> StronglySorted le_expires c ->
  evict c = skipn 100 c.
Proof.
  intros Hwf Hs Hsorted. unfold evict.
  rewrite (CacheFacts.toRemove_large _ _ Hs).
  rewrite (sort_by_expires_sorted_id _ Hsorted).
  rewrite JSMapFacts.delete_each_filter.
  assert (Hnd : NoDup (map fst (firstn 100 c) ++ map fst (skipn 100 c))).
  { rewrite <- map_app, firstn_skipn. exact Hwf. }
  set (q := fun kv : string * CacheEntry T =>
              negb (existsb (String.eqb (fst kv)) (map fst (firstn 100 c)))).
  rewrite <- (firstn_skipn 100 c) at 1.
  rewrite filter_app, ListFacts.filter_none, ListFacts.filter_all;
    unfold q.
  - reflexivity.
  - intros x Hx. apply negb_true_iff, not_true_iff_false.
    intros Hex. apply existsb_exists in Hex.
    destruct Hex as [k [Hk Heq]]. apply String.eqb_eq in Heq. subst k.
    apply (ListFacts.NoDup_app_disjoint _ _ Hnd (fst x));
      [assumption|now apply in_map].
  - intros x Hx. apply negb_false_iff.
    apply existsb_exists. exists (fst x).
    split; [now apply in_map|apply String.eqb_refl].
Qed.

(** X7. When a full cache, of 1000 entries none of which is expired,
    holds its entries in the order of their expiry, and a new key is set
    that expires last, the capacity check drops the 100 entries that
    were inserted first and keeps the others in order, the new entry
    last. *)
Theorem set_drops_oldest key d ttl now now' this :
  JSMap.wf (cache this) ->
  JSMap.size (cache this) = 1000 ->
  JSMap.get key (cache this) = None ->
  StronglySorted le_expires (cache this) ->
  Forall (fun x => now' <= expires (snd x) <= now + ttl * 1000)
    (cache this) ->
  now' <= now + ttl * 1000 ->
  cache (set calculateSize key d ttl now now' this)
  = skipn 100 (cache this)
    ++ [(key, {| data := d; expires := now + ttl * 1000;
                 size := calculateSize d |})].
Proof.
  intros Hwf Hsize Hfresh Hsorted Hall Hnew.
  rewrite CacheSpec.cache_set. unfold swept.
  set (e := {| data := d; expires := now + ttl * 1000;
               size := calculateSize d |}).
  rewrite (JSMapFacts.set_fresh _ _ _ Hfresh).
  rewrite Forall_forall in Hall.
  rewrite CacheFacts.sweep_expired_id.
  - rewrite evict_sorted.
    + rewrite skipn_app.
      replace (100 - List.length (cache this))%nat with 0%nat
        by (unfold JSMap.size in Hsize; lia).
      reflexivity.
    + rewrite <- (JSMapFacts.set_fresh _ e _ Hfresh).
      now apply JSMapFacts.wf_set.
    + unfold JSMap.size in *. rewrite length_app. simpl. lia.
    + apply StronglySorted_snoc; [assumption|].
      apply Forall_forall. intros y Hy. unfold le_expires. simpl.
      apply Hall in Hy. lia.
  - intros x Hx. apply in_app_or in Hx.
    destruct Hx as [Hx|[<-|[]]]; [apply Hall in Hx; lia|simpl; lia].
Qed.

End More.

End CacheMore.

(* ================================================================== *)
(** * More of the token cipher: storage, hashing, random tokens *)
(* ================================================================== *)

Module TokenMore.

Import TokenEncryption TokenStorage.

Lemma toString_base64_nonempty (buf : Buffer.t) :
  buf <> [] -> Buffer.toString_base64 buf <> EmptyString.
Proof. destruct buf as [|x [|y [|z buf]]]; [congruence|discriminate..]. Qed.

Lemma toString_hex_length (buf : Buffer.t) :
  String.length (Buffer.toString_hex buf) = (2 * List.length buf)%nat.
Proof. induction buf as [|b buf IH]; simpl; [reflexivity|]. rewrite IH. lia. Qed.

Lemma hex_digit_is_digit (n : N) :
  (n < 16)%N -> Hex.is_digit (Buffer.hex_digit n) = true.
Proof.
  exact (BufferFacts.below_by_cases 16
           (fun n => Hex.is_digit (Buffer.hex_digit n)) eq_refl n).
Qed.

Lemma toString_hex_digits (buf : Buffer.t) :
  Hex.all_digits (Buffer.toString_hex buf) = true.
Proof.
  unfold Hex.all_digits. induction buf as [|b buf IH]; [reflexivity|].
  pose proof (BufferFacts.to_N_lt b) as Hb.
  cbn [Buffer.toString_hex list_ascii_of_string forallb].
  rewrite IH, !hex_digit_is_digit; [reflexivity| |].
  - apply N.mod_lt. discriminate.
  - apply N.Div0.div_lt_upper_bound. exact Hb.
Qed.

Section Laws.
Context `{NodeCrypto}.

Hypothesis sha256_length :
  forall m, List.length (sha256 m) = 32%nat.
Hypothesis gcm_encrypt_ok :
  forall key iv plain,
    List.length key = 32%nat -> List.length iv = 12%nat ->
    exists c t, gcm_encrypt key iv plain = Ok (c, t).
Hypothesis gcm_encrypt_length :
  forall key iv plain c t,
    gcm_encrypt key iv plain = Ok (c, t) ->
    List.length c = List.length plain /\ List.length t = 16%nat.
Hypothesis gcm_decrypt_encrypt :
  forall key iv plain c t,
    gcm_encrypt key iv plain = Ok (c, t) ->
    gcm_decrypt key iv c t = Ok plain.

(** The output of [encrypt] is never the empty string. *)
Lemma encrypt_nonempty env (randomBytes : Z -> Buffer.t) token :
  List.length (randomBytes IV_LENGTH) = 12%nat ->
  exists c s, encrypt env randomBytes token = String c s.
Proof.
  intros Hiv.
  destruct (TokenSpec.encrypt_combined sha256_length gcm_encrypt_ok
              gcm_encrypt_length env randomBytes token Hiv)
    as [c [t [_ [_ [_ Hout]]]]].
  rewrite Hout.
  destruct (Buffer.toString_base64 _) eqn:E; [|eauto].
  exfalso. revert E. apply toString_base64_nonempty.
  destruct (randomBytes IV_LENGTH); [discriminate|discriminate].
Qed.

(** [decrypt] undoes [encrypt]. *)
Lemma decrypt_undoes_encrypt env (randomBytes : Z -> Buffer.t) token :
  List.length (randomBytes IV_LENGTH) = 12%nat ->
  utf8_decode (utf8_encode token) = token ->
  decrypt env (encrypt env randomBytes token) = token.
Proof.
  intros Hiv Hutf8.
  destruct (TokenSpec.encrypt_combined sha256_length gcm_encrypt_ok
              gcm_encrypt_length env randomBytes token Hiv)
    as [c [t [Henc [Hc [Ht Hout]]]]].
  rewrite Hout, TokenSpec.decrypt_cases.
  rewrite BufferFacts.from_base64_toString. cbv zeta.
  destruct (BufferFacts.subarray_layout _ c t Hiv Ht) as [H1 [H2 H3]].
  change IV_LENGTH with 12 in *. change (- TAG_LENGTH) with (-16).
  rewrite H1, H2, H3.
  now rewrite (gcm_decrypt_encrypt _ _ _ _ _ Henc).
Qed.

(** X8. In a browser, [retrieveToken(key)] after [storeToken(key, token)]
    returns [token], for every token that UTF-8 represents: what is
    stored is never the empty string, which [retrieveToken] would take
    for an absent value. *)
Theorem store_then_retrieve env (randomBytes : Z -> Buffer.t)
  key token (localStorage : Storage.t) :
  List.length (randomBytes IV_LENGTH) = 12%nat ->
  utf8_decode (utf8_encode token) = token ->
  retrieveToken true env key
    (storeToken true env randomBytes key token localStorage)
  = Some token.
Proof.
  intros Hiv Hutf8. unfold retrieveToken, storeToken.
  unfold Storage.getItem, Storage.setItem.
  rewrite JSMapFacts.get_set_same.
  destruct (encrypt_nonempty env randomBytes token Hiv) as [c [s E]].
  rewrite E, <- E. f_equal.
  now apply decrypt_undoes_encrypt.
Qed.

(** X10. [hashToken] returns 64 lower-case hexadecimal digits that spell
    the SHA-256 digest of the UTF-8 form of the token. *)
Theorem hashToken_format token :
  String.length (hashToken token) = 64%nat
  /\ Hex.all_digits (hashToken token) = true
  /\ Buffer.from_hex (hashToken token) = sha256 (utf8_encode token).
Proof.
  unfold hashToken. repeat split.
  - now rewrite toString_hex_length, sha256_length.
  - apply toString_hex_digits.
  - apply BufferFacts.from_hex_toString.
Qed.

End Laws.

(** X9. [removeToken(key)] makes [retrieveToken(key)] return null, and
    neither it nor [storeToken(key, ...)] changes what [retrieveToken]
    returns for another key. *)
Theorem removeToken_forgets `{NodeCrypto} window env
  (randomBytes : Z -> Buffer.t) key token (localStorage : Storage.t) :
  retrieveToken window env key (removeToken window key localStorage) = None
  /\ (forall key', key' <> key ->
        retrieveToken window env key' (removeToken window key localStorage)
        = retrieveToken window env key' localStorage
        /\ retrieveToken window env key'
             (storeToken window env randomBytes key token localStorage)
           = retrieveToken window env key' localStorage).
Proof.
  unfold retrieveToken, removeToken, storeToken.
  unfold Storage.getItem, Storage.setItem, Storage.removeItem.
  destruct window; [|auto]. split.
  - now rewrite JSMapFacts.get_delete_same.
  - intros key' Hne.
    rewrite JSMapFacts.get_delete_other, JSMapFacts.get_set_other;
      auto; congruence.
Qed.

(** X11. [generateSecureToken(length)] throws for a [length] that is
    negative or above [2^31 - 1], and for one whose hex text would be
    longer than a string can be. For a [length] from 0 to [2^31 - 1]
    whose hex text fits a string it returns twice [length] lower-case
    hexadecimal digits, which spell the random bytes drawn. *)
Theorem generateSecureToken_format (MAX_STRING_LENGTH : Z)
  (randomBytes : Z -> Buffer.t) (length : Z) :
  (length < 0 \/ 2 ^ 31 - 1 < length ->
   exists error,
     generateSecureToken MAX_STRING_LENGTH randomBytes length = Throw error)
  /\ (0 <= length <= 2 ^ 31 - 1 ->
      MAX_STRING_LENGTH < 2 * length ->
      List.length (randomBytes length) = Z.to_nat length ->
      exists error,
        generateSecureToken MAX_STRING_LENGTH randomBytes length
        = Throw error)
  /\ (0 <= length <= 2 ^ 31 - 1 ->
      2 * length <= MAX_STRING_LENGTH ->
      List.length (randomBytes length) = Z.to_nat length ->
      exists token,
        generateSecureToken MAX_STRING_LENGTH randomBytes length = Ok token
        /\ String.length token = (2 * Z.to_nat length)%nat
        /\ Hex.all_digits token = true
        /\ Buffer.from_hex token = randomBytes length).
Proof.
  unfold generateSecureToken, randomBytes_checked, toString_hex_checked.
  split; [|split].
  - intros Hout.
    destruct ((length <? 0) || (2 ^ 31 - 1 <? length)) eqn:E.
    + simpl. eauto.
    + apply orb_false_iff in E. destruct E as [E1 E2].
      apply Z.ltb_ge in E1, E2. lia.
  - intros Hrange Hlong Hlen.
    destruct ((length <? 0) || (2 ^ 31 - 1 <? length)) eqn:E.
    + simpl. eauto.
    + cbn [bind]. rewrite Hlen.
      destruct (MAX_STRING_LENGTH <? 2 * Z.of_nat (Z.to_nat length)) eqn:F.
      * eauto.
      * apply Z.ltb_ge in F. lia.
  - intros Hrange Hfits Hlen.
    destruct ((length <? 0) || (2 ^ 31 - 1 <? length)) eqn:E.
    + apply orb_true_iff in E. destruct E as [E|E]; apply Z.ltb_lt in E; lia.
    + cbn [bind]. rewrite Hlen.
      destruct (MAX_STRING_LENGTH <? 2 * Z.of_nat (Z.to_nat length)) eqn:F.
      * apply Z.ltb_lt in F. lia.
      * eexists. split; [reflexivity|]. repeat split.
        -- now rewrite toString_hex_length, Hlen.
        -- apply toString_hex_digits.
        -- apply BufferFacts.from_hex_toString.
Qed.

End TokenMore.

(* ================================================================== *)
(** * The Figma client: file keys, token, cached requests *)
(* ================================================================== *)

Module FigmaMore.

Import FigmaClient.

Local Open Scope string_scope.

Lemma app_assoc_string (a b c : string) : (a ++ b) ++ c = a ++ b ++ c.
Proof. induction a as [|x a IH]; simpl; [reflexivity|now rewrite IH]. Qed.

Lemma after_Some (lit s rest : string) :
  after lit s = Some rest <-> s = lit ++ rest.
Proof.
  revert s. induction lit as [|a lit IH]; intros s; simpl.
  - split; [now intros [= ->]|now intros ->].
  - destruct s as [|b s]; [split; discriminate|].
    destruct (Ascii.eqb a b) eqn:E.
    + apply Ascii.eqb_eq in E. subst b. rewrite IH.
      split; [now intros ->|now intros [= ->]].
    + apply Ascii.eqb_neq in E. split; [discriminate|].
      intros [= -> _]. congruence.
Qed.

(** The run of alphanumeric characters at the start of a string, and
    what follows it. *)
Lemma alnum_run_split (s : string) :
  all_alnum (alnum_run s) = true
  /\ exists post, s = alnum_run s ++ post /\ starts_alnum post = false.
Proof.
  induction s as [|c s [IH1 [post [IH2 IH3]]]]; simpl.
  - split; [reflexivity|]. now exists EmptyString.
  - destruct (isAlnum c) eqn:E; simpl.
    + rewrite E, IH1. split; [reflexivity|].
      exists post. now rewrite <- IH2.
    + split; [reflexivity|]. exists (String c s). simpl. auto.
Qed.

Lemma alnum_run_app (key post : string) :
  all_alnum key = true -> starts_alnum post = false ->
  alnum_run (key ++ post) = key.
Proof.
  induction key as [|c key IH]; simpl; intros Hk Hp.
  - destruct post as [|c post]; [reflexivity|]. simpl in *. now rewrite Hp.
  - apply andb_true_iff in Hk. destruct Hk as [Hc Hk].
    rewrite Hc. now rewrite IH.
Qed.

Lemma alnum_run_empty (s : string) :
  alnum_run s = EmptyString <-> starts_alnum s = false.
Proof.
  destruct s as [|c s]; simpl; [tauto|].
  destruct (isAlnum c); split; congruence || discriminate.
Qed.

Lemma match_here_Some (lit s key : string) :
  match_here lit s = Some key ->
  key <> EmptyString /\ all_alnum key = true
  /\ exists post, s = lit ++ key ++ post /\ starts_alnum post = false.
Proof.
  unfold match_here. destruct (after lit s) as [rest|] eqn:Ha; [|discriminate].
  apply after_Some in Ha.
  destruct (alnum_run_split rest) as [Hall [post [Hrest Hpost]]].
  destruct (alnum_run rest) as [|c k] eqn:Hk; [discriminate|].
  intros [= <-]. split; [discriminate|]. split; [assumption|].
  exists post. now rewrite <- Hrest.
Qed.

Lemma match_here_None (lit s : string) :
  match_here lit s = None <->
  (forall rest, s = lit ++ rest -> starts_alnum rest = false).
Proof.
  unfold match_here. split.
  - intros Hm rest Hs. apply after_Some in Hs. rewrite Hs in Hm.
    apply alnum_run_empty. now destruct (alnum_run rest).
  - intros Hall. destruct (after lit s) as [rest|] eqn:Ha; [|reflexivity].
    apply after_Some in Ha. apply Hall, alnum_run_empty in Ha.
    now rewrite Ha.
Qed.

Lemma search_Some (lit s key : string) :
  search lit s = Some key ->
  key <> EmptyString /\ all_alnum key = true
  /\ exists pre post,
       s = pre ++ lit ++ key ++ post /\ starts_alnum post = false.
Proof.
  induction s as [|c s IH]; simpl.
  - destruct (match_here lit EmptyString) as [k|] eqn:Hm; [|discriminate].
    intros [= ->]. destruct (match_here_Some _ _ _ Hm) as [H1 [H2 [post H3]]].
    split; [assumption|]. split; [assumption|]. now exists EmptyString, post.
  - destruct (match_here lit (String c s)) as [k|] eqn:Hm.
    + intros [= ->].
      destruct (match_here_Some _ _ _ Hm) as [H1 [H2 [post H3]]].
      split; [assumption|]. split; [assumption|].
      now exists EmptyString, post.
    + intros Hs. destruct (IH Hs) as [H1 [H2 [pre [post [H3 H4]]]]].
      split; [assumption|]. split; [assumption|].
      exists (String c pre), post. simpl. now rewrite <- H3.
Qed.

Lemma search_None (lit s : string) :
  search lit s = None <->
  (forall pre rest, s = pre ++ lit ++ rest -> starts_alnum rest = false).
Proof.
  induction s as [|c s IH]; simpl.
  - destruct (match_here lit EmptyString) as [k|] eqn:Hm.
    + split; [discriminate|]. intros Hall. exfalso.
      assert (Hn : match_here lit EmptyString = None).
      { apply match_here_None. intros rest Hr. now apply (Hall EmptyString). }
      congruence.
    + split; [|reflexivity]. intros _ pre rest Hs.
      destruct pre as [|a pre]; [|discriminate].
      now apply (proj1 (match_here_None lit EmptyString) Hm).
  - destruct (match_here lit (String c s)) as [k|] eqn:Hm.
    + split; [discriminate|]. intros Hall. exfalso.
      assert (Hn : match_here lit (String c s) = None).
      { apply match_here_None. intros rest Hr. now apply (Hall EmptyString). }
      congruence.
    + rewrite IH. split.
      * intros Hall pre rest Hs. destruct pre as [|a pre].
        -- now apply (proj1 (match_here_None lit (String c s)) Hm).
        -- simpl in Hs. injection Hs as _ Hs. now apply (Hall pre).
      * intros Hall pre rest Hs. apply (Hall (String c pre)).
        simpl. now rewrite Hs.
Qed.

Lemma search_here (lit s key : string) :
  match_here lit s = Some key -> search lit s = Some key.
Proof. intros Hm. destruct s; simpl; now rewrite Hm. Qed.

Lemma search_skip (lit : string) (a : ascii) (s : string) :
  match_here lit (String a s) = None ->
  search lit (String a s) = search lit s.
Proof. intros Hm. simpl. now rewrite Hm. Qed.

(** X12. A key that [extractFileKey] returns is a non-empty run of
    letters and digits that stands in the URL right after one of the
    three path prefixes and ends where the run of letters and digits
    ends. *)
Theorem extractFileKey_sound (url key : string) :
  extractFileKey url = Some key ->
  key <> EmptyString
  /\ all_alnum key = true
  /\ exists pattern pre post,
       In pattern patterns
       /\ url = pre ++ pattern ++ key ++ post
       /\ starts_alnum post = false.
Proof.
  unfold extractFileKey, patterns.
  destruct (search "figma.com/file/" url) as [k|] eqn:H1.
  { intros [= ->]. destruct (search_Some _ _ _ H1) as [A [B [pre [post C]]]].
    split; [assumption|]. split; [assumption|].
    exists "figma.com/file/", pre, post. simpl. tauto. }
  destruct (search "figma.com/design/" url) as [k|] eqn:H2.
  { intros [= ->]. destruct (search_Some _ _ _ H2) as [A [B [pre [post C]]]].
    split; [assumption|]. split; [assumption|].
    exists "figma.com/design/", pre, post. simpl. tauto. }
  destruct (search "figma.com/proto/" url) as [k|] eqn:H3; [|discriminate].
  intros [= ->]. destruct (search_Some _ _ _ H3) as [A [B [pre [post C]]]].
  split; [assumption|]. split; [assumption|].
  exists "figma.com/proto/", pre, post. simpl. tauto.
Qed.

(** X13. [extractFileKey] returns null exactly when none of the three
    path prefixes occurs in the URL with a letter or a digit after it. *)
Theorem extractFileKey_null (url : string) :
  extractFileKey url = None <->
  (forall pattern pre rest,
     In pattern patterns -> url = pre ++ pattern ++ rest ->
     starts_alnum rest = false).
Proof.
  unfold extractFileKey, patterns. split.
  - intros Hnone pattern pre rest Hin Hurl.
    destruct (search "figma.com/file/" url) eqn:H1; [discriminate|].
    destruct (search "figma.com/design/" url) eqn:H2; [discriminate|].
    destruct (search "figma.com/proto/" url) eqn:H3; [discriminate|].
    destruct Hin as [<-|[<-|[<-|[]]]];
      [apply (proj1 (search_None _ _) H1 pre rest Hurl)
      |apply (proj1 (search_None _ _) H2 pre rest Hurl)
      |apply (proj1 (search_None _ _) H3 pre rest Hurl)].
  - intros Hall.
    assert (Hs : forall pattern, In pattern patterns ->
                   search pattern url = None).
    { intros pattern Hin. apply search_None. intros pre rest.
      now apply Hall. }
    unfold patterns in Hs.
    rewrite (Hs "figma.com/file/"), (Hs "figma.com/design/"),
      (Hs "figma.com/proto/"); simpl; auto.
Qed.

(** X14. From a URL that has [figma.com/file/] followed by a key of
    letters and digits, with no letter [f] before it, [extractFileKey]
    returns that key, whatever follows the key. *)
Theorem extractFileKey_file_url (pre key post : string) :
  Forall (fun c => c <> "f"%char) (list_ascii_of_string pre) ->
  key <> EmptyString ->
  all_alnum key = true ->
  starts_alnum post = false ->
  extractFileKey (pre ++ "figma.com/file/" ++ key ++ post) = Some key.
Proof.
  intros Hpre Hne Hall Hpost. unfold extractFileKey, patterns.
  assert (Hs : search "figma.com/file/"
                 (pre ++ "figma.com/file/" ++ key ++ post) = Some key).
  { induction pre as [|a pre IH].
    - cbn [append]. destruct key as [|c key]; [congruence|].
      assert (Hm : match_here "figma.com/file/"
                     ("figma.com/file/" ++ String c key ++ post)
                   = Some (String c key)).
      { unfold match_here.
        rewrite (proj2 (after_Some _ _ (String c key ++ post)) eq_refl).
        now rewrite alnum_run_app. }
      now apply search_here.
    - simpl in Hpre. inversion Hpre as [|? ? Ha Hpre']; subst.
      assert (Hm : match_here "figma.com/file/"
                     (String a (pre ++ "figma.com/file/" ++ key ++ post))
                   = None).
      { unfold match_here. cbn [after].
        destruct (Ascii.eqb "f" a) eqn:E; [|reflexivity].
        apply Ascii.eqb_eq in E. congruence. }
      change (String a pre ++ "figma.com/file/" ++ key ++ post)
        with (String a (pre ++ "figma.com/file/" ++ key ++ post)).
      rewrite (search_skip _ _ _ Hm). now apply IH. }
  now rewrite Hs.
Qed.

End FigmaMore.

Module FigmaCache.

Import FigmaClient.

Section Laws.
Context `{NodeCrypto}.

Hypothesis sha256_length :
  forall m, List.length (sha256 m) = 32%nat.
Hypothesis gcm_encrypt_ok :
  forall key iv plain,
    List.length key = 32%nat -> List.length iv = 12%nat ->
    exists c t, gcm_encrypt key iv plain = Ok (c, t).
Hypothesis gcm_encrypt_length :
  forall key iv plain c t,
    gcm_encrypt key iv plain = Ok (c, t) ->
    List.length c = List.length plain /\ List.length t = 16%nat.
Hypothesis gcm_decrypt_encrypt :
  forall key iv plain c t,
    gcm_encrypt key iv plain = Ok (c, t) ->
    gcm_decrypt key iv c t = Ok plain.

Variable T : Type.
Variable calculateSize : T -> Z.
Variable truthy : T -> bool.

Implicit Types (this : FigmaClient T).

(** X15. After [setToken(token)], [getToken()] returns [token], for
    every token that UTF-8 represents, and so every request carries it;
    the configuration keeps the encrypted form only, and the cache is not
    touched. *)
Theorem getToken_after_setToken env (randomBytes : Z -> Buffer.t)
  token this :
  List.length (randomBytes TokenEncryption.IV_LENGTH) = 12%nat ->
  utf8_decode (utf8_encode token) = token ->
  getToken env (setToken env randomBytes token this) = Ok token
  /\ (forall (http : string -> string -> result T) endpoint,
        makeRequest http env endpoint (setToken env randomBytes token this)
        = http (apiBaseUrl (config this) ++ endpoint)%string token)
  /\ FigmaClient.token (config (setToken env randomBytes token this))
     = Some (TokenEncryption.encrypt env randomBytes token)
  /\ cache (setToken env randomBytes token this) = cache this.
Proof.
  intros Hiv Hutf8.
  assert (Hget : getToken env (setToken env randomBytes token this)
                 = Ok token).
  { unfold getToken, setToken. cbn [config FigmaClient.token].
    destruct (TokenMore.encrypt_nonempty sha256_length gcm_encrypt_ok
                gcm_encrypt_length env randomBytes token Hiv) as [c [s E]].
    rewrite E, <- E. f_equal.
    now apply (TokenMore.decrypt_undoes_encrypt sha256_length gcm_encrypt_ok
                 gcm_encrypt_length gcm_decrypt_encrypt). }
  split; [exact Hget|]. split; [|split; reflexivity].
  intros http endpoint. unfold makeRequest. rewrite Hget. reflexivity.
Qed.

End Laws.

Section Requests.
Context `{NodeCrypto}.
Variable T : Type.
Variable calculateSize : T -> Z.
Variable truthy : T -> bool.

Implicit Types (this : FigmaClient T).

(** X16. With the cache enabled and below its capacity, a file that
    [getFile] has fetched is served from the cache for the next hour:
    a later [getFile] of the same key returns the same response whatever
    the network would answer then. *)
Theorem getFile_served_from_cache
  (http : string -> string -> result T) env fileKey response
  now now' now'' later this :
  cacheEnabled (config this) = true ->
  JSMap.wf (Cache.cache (cache this)) ->
  JSMap.size (Cache.cache (cache this)) < 1000 ->
  Cache.has ("figma-file-" ++ fileKey) now (cache this) = false ->
  makeRequest http env ("/files/" ++ fileKey) this = Ok response ->
  truthy response = true ->
  now'' <= later ->
  later - now' < 3600 * 1000 ->
  fst (getFile calculateSize truthy http env fileKey now now' now'' this)
  = Ok response
  /\ (forall (http' : string -> string -> result T) t t',
        fst (getFile calculateSize truthy http' env fileKey later t t'
               (snd (getFile calculateSize truthy http env fileKey
                       now now' now'' this)))
        = Ok response).
Proof.
  intros Hen Hwf Hsize Hmiss Hreq Htruthy Hmono Hfresh.
  unfold getFile at 1 3. unfold cached_request. rewrite Hen.
  pose proof (CacheMore.cache_get_miss T _ _ _ Hmiss) as Hnone.
  pose proof (CacheMore.cache_get_size T ("figma-file-" ++ fileKey) now
                (cache this)) as Hle.
  pose proof (CacheSpec.get_wf T ("figma-file-" ++ fileKey) now (cache this)
                Hwf) as Hwf1.
  destruct (Cache.get ("figma-file-" ++ fileKey) now (cache this))
    as [r c1] eqn:G.
  simpl in Hnone, Hle, Hwf1. subst r.
  change (makeRequest http env ("/files/" ++ fileKey) (with_cache this c1))
    with (makeRequest http env ("/files/" ++ fileKey) this).
  rewrite Hreq. cbn [with_cache config cacheEnabled].
  rewrite Hen. split; [reflexivity|].
  intros http' t t'. cbn [snd].
  unfold getFile, cached_request. cbn [with_cache config cache].
  rewrite Hen.
  pose proof (CacheSpec.get_after_set_below_capacity T calculateSize
                ("figma-file-" ++ fileKey) response 3600 now' now'' later c1
                Hwf1) as Hhit.
  destruct (Cache.get ("figma-file-" ++ fileKey) later
              (Cache.set calculateSize ("figma-file-" ++ fileKey) response
                 3600 now' now'' c1)) as [r c2].
  simpl in Hhit. rewrite Hhit by lia.
  now rewrite Htruthy.
Qed.

(** X17. [clearAllCache()] removes the entries of the client, whose
    keys start with [figma-], the user and every file among them, and
    keeps every other entry of the shared cache, those of the AI provider
    among them. *)
Theorem clearAllCache_scope this :
  (forall key,
     JSMap.get key (Cache.cache (cache (clearAllCache this)))
     = if String.prefix "figma-" key then None
       else JSMap.get key (Cache.cache (cache this)))
  /\ JSMap.get "figma-user" (Cache.cache (cache (clearAllCache this))) = None
  /\ (forall fileKey,
        JSMap.get ("figma-file-" ++ fileKey)
          (Cache.cache (cache (clearAllCache this))) = None)
  /\ (forall prompt,
        JSMap.get (AIProvider.cacheKey prompt)
          (Cache.cache (cache (clearAllCache this)))
        = JSMap.get (AIProvider.cacheKey prompt) (Cache.cache (cache this))).
Proof.
  assert (Hget : forall key,
     JSMap.get key (Cache.cache (cache (clearAllCache this)))
     = if String.prefix "figma-" key then None
       else JSMap.get key (Cache.cache (cache this))).
  { intros key. unfold clearAllCache. cbn [with_cache cache].
    apply (CacheMore.get_after_clear T (Some "figma-")). }
  split; [exact Hget|]. split; [|split].
  - now rewrite Hget.
  - intros fileKey. now rewrite Hget.
  - intros prompt. now rewrite Hget.
Qed.

End Requests.

End FigmaCache.

(* ================================================================== *)
(** * The hash behind the cache keys of the AI provider *)
(* ================================================================== *)

Module AIMore.

Import AIProvider.

Lemma to_int32_range (z : Z) : - 2 ^ 31 <= to_int32 z < 2 ^ 31.
Proof.
  unfold to_int32.
  pose proof (Z.mod_pos_bound (z + 2 ^ 31) (2 ^ 32) eq_refl). lia.
Qed.

Lemma to_int32_add_mul (z k : Z) : to_int32 (z + k * 2 ^ 32) = to_int32 z.
Proof.
  unfold to_int32.
  replace (z + k * 2 ^ 32 + 2 ^ 31) with (z + 2 ^ 31 + k * 2 ^ 32) by lia.
  now rewrite Z.mod_add by discriminate.
Qed.

Lemma to_int32_wraps (z : Z) : exists k, to_int32 z = z + k * 2 ^ 32.
Proof.
  exists (- ((z + 2 ^ 31) / 2 ^ 32)). unfold to_int32.
  rewrite Z.mod_eq by discriminate. lia.
Qed.

Lemma to_int32_small (z : Z) : - 2 ^ 31 <= z < 2 ^ 31 -> to_int32 z = z.
Proof. intros Hz. unfold to_int32. rewrite Z.mod_small; lia. Qed.

(** One turn of the loop multiplies by 31 and adds the code unit. *)
Lemma hash_step_31 (h x c : Z) :
  h = to_int32 x -> hash_step h c = to_int32 (31 * x + c).
Proof.
  intros ->. unfold hash_step. cbv zeta.
  rewrite Z.land_diag, Z.shiftl_mul_pow2 by lia.
  destruct (to_int32_wraps x) as [k Hk].
  destruct (to_int32_wraps (to_int32 x * 2 ^ 5)) as [k' Hk'].
  rewrite Hk', Hk.
  replace ((x + k * 2 ^ 32) * 2 ^ 5 + k' * 2 ^ 32 - (x + k * 2 ^ 32) + c)
    with (31 * x + c + (31 * k + k') * 2 ^ 32) by lia.
  apply to_int32_add_mul.
Qed.

Lemma hash_fold (codes : list Z) : forall h x,
  h = to_int32 x ->
  fold_left hash_step codes h
  = to_int32 (fold_left (fun h c => 31 * h + c) codes x).
Proof.
  induction codes as [|c codes IH]; intros h x Hh; simpl; [assumption|].
  apply IH. now apply hash_step_31.
Qed.

(** X18. The number that [hashString] renders is the polynomial in 31
    of the code units of the string, wrapped to a signed 32-bit integer;
    it lies between [-2^31] and [2^31 - 1]. *)
Theorem hash_of_poly31 (codes : list Z) :
  hash_of codes = to_int32 (poly31 codes)
  /\ - 2 ^ 31 <= hash_of codes < 2 ^ 31.
Proof.
  assert (Hp : hash_of codes = to_int32 (poly31 codes))
    by (apply hash_fold; reflexivity).
  split; [exact Hp|]. rewrite Hp. apply to_int32_range.
Qed.

Lemma char_codes_app (a b : string) :
  char_codes (a ++ b) = char_codes a ++ char_codes b.
Proof.
  unfold char_codes. induction a as [|c a IH]; simpl; [reflexivity|].
  now rewrite IH.
Qed.

Lemma append_inj_l (pre a b : string) :
  (pre ++ a)%string = (pre ++ b)%string -> a = b.
Proof.
  induction pre as [|c pre IH]; simpl; [auto|]. intros [= E]. auto.
Qed.

Lemma hash_of_Aa_BB (pre post : string) :
  hash_of (char_codes (pre ++ "Aa" ++ post))
  = hash_of (char_codes (pre ++ "BB" ++ post)).
Proof.
  unfold hash_of.
  rewrite !char_codes_app, !fold_left_app. f_equal.
  set (h := fold_left hash_step (char_codes pre) 0).
  change (char_codes "Aa") with [65; 97].
  change (char_codes "BB") with [66; 66].
  cbn [fold_left].
  assert (Hpoly : h = to_int32 (poly31 (char_codes pre)))
    by (apply hash_fold; reflexivity).
  rewrite (hash_step_31 (hash_step h 65) (31 * poly31 (char_codes pre) + 65)
             97 (hash_step_31 h _ 65 Hpoly)).
  rewrite (hash_step_31 (hash_step h 66) (31 * poly31 (char_codes pre) + 66)
             66 (hash_step_31 h _ 66 Hpoly)).
  f_equal. lia.
Qed.

Lemma Aa_BB_differ (pre post : string) :
  (pre ++ "Aa" ++ post)%string <> (pre ++ "BB" ++ post)%string.
Proof. intros E. apply append_inj_l in E. discriminate E. Qed.

(** X19. Two prompts that differ only by [Aa] in place of [BB] somewhere
    hash to the same key, although they are different strings: the cache
    of [generateCode] cannot tell them apart. *)
Theorem hashString_collision (pre post : string) :
  (pre ++ "Aa" ++ post)%string <> (pre ++ "BB" ++ post)%string
  /\ hashString (pre ++ "Aa" ++ post) = hashString (pre ++ "BB" ++ post)
  /\ cacheKey (pre ++ "Aa" ++ post) = cacheKey (pre ++ "BB" ++ post).
Proof.
  split; [apply Aa_BB_differ|].
  unfold cacheKey, hashString. now rewrite hash_of_Aa_BB.
Qed.

(** ** The base-36 text of the hash *)

Lemma below36 (p : Z -> bool) :
  forallb p (map Z.of_nat (seq 0 36)) = true ->
  forall d, 0 <= d < 36 -> p d = true.
Proof.
  intros Hall d Hd. rewrite forallb_forall in Hall. apply Hall.
  rewrite <- (Z2Nat.id d) by lia. apply in_map. apply in_seq. lia.
Qed.

Lemma undigit36_digit36 (d : Z) :
  0 <= d < 36 ->
  undigit36 (digit36 d) = d /\ Ascii.eqb (digit36 d) "-"%char = false.
Proof.
  intros Hd.
  pose proof (below36
    (fun d => (undigit36 (digit36 d) =? d)
              && negb (Ascii.eqb (digit36 d) "-"%char)) eq_refl d Hd) as Hp.
  simpl in Hp. apply andb_true_iff in Hp. destruct Hp as [H1 H2].
  apply Z.eqb_eq in H1. apply negb_true_iff in H2. now split.
Qed.

Lemma eval36_digits36 (fuel : nat) : forall n acc,
  0 <= n < 36 ^ Z.of_nat fuel ->
  fst (eval36 (digits36 fuel n acc))
  = n * snd (eval36 acc) + fst (eval36 acc).
Proof.
  induction fuel as [|fuel IH]; intros n acc Hn.
  - simpl in *. assert (n = 0) by lia. subst. lia.
  - rewrite Nat2Z.inj_succ, Z.pow_succ_r in Hn by lia.
    cbn [digits36].
    assert (Hd : 0 <= n mod 36 < 36) by (apply Z.mod_pos_bound; lia).
    destruct (undigit36_digit36 _ Hd) as [Hu _].
    destruct (n / 36 =? 0) eqn:E.
    + apply Z.eqb_eq in E. cbn [eval36].
      destruct (eval36 acc) as [v w]. cbn [fst snd]. rewrite Hu.
      rewrite (Z.div_mod n 36) at 2 by lia. rewrite E. lia.
    + rewrite IH.
      * cbn [eval36]. destruct (eval36 acc) as [v w]. cbn [fst snd].
        rewrite Hu. rewrite (Z.div_mod n 36) at 3 by lia. ring.
      * split; [apply Z.div_pos; lia|].
        apply Z.div_lt_upper_bound; lia.
Qed.

Lemma digits36_head (fuel : nat) : forall n acc,
  (fuel = 0%nat ->
   exists d s, 0 <= d < 36 /\ acc = String (digit36 d) s) ->
  exists d s, 0 <= d < 36 /\ digits36 fuel n acc = String (digit36 d) s.
Proof.
  induction fuel as [|fuel IH]; intros n acc Hacc; [now apply Hacc|].
  cbn [digits36].
  assert (Hd : 0 <= n mod 36 < 36) by (apply Z.mod_pos_bound; lia).
  destruct (n / 36 =? 0); [eauto|].
  apply IH. intros _. eauto.
Qed.

(** The text of a 32-bit integer denotes it. *)
Lemma value36_toString36 (n : Z) :
  - 2 ^ 31 <= n < 2 ^ 31 -> value36 (toString36 n) = n.
Proof.
  intros Hn. unfold toString36. destruct (n <? 0) eqn:E.
  - apply Z.ltb_lt in E. cbn [value36]. rewrite Ascii.eqb_refl.
    rewrite eval36_digits36 by (simpl; lia). simpl. lia.
  - apply Z.ltb_ge in E.
    destruct (digits36_head 7 n EmptyString) as [d [s [Hd Hs]]];
      [discriminate|].
    pose proof (eval36_digits36 7 n EmptyString) as Hv.
    rewrite Hs in *. cbn [value36].
    rewrite (proj2 (undigit36_digit36 d Hd)).
    rewrite Hv by (simpl; lia). simpl. lia.
Qed.

(** X20. Two prompts get the same cache key exactly when their 32-bit
    hashes are equal: the base-36 text loses nothing of the hash. *)
Theorem cacheKey_eq_iff (p q : string) :
  cacheKey p = cacheKey q
  <-> hash_of (char_codes p) = hash_of (char_codes q).
Proof.
  unfold cacheKey, hashString. split.
  - intros E. apply append_inj_l in E.
    assert (Hr : forall s, - 2 ^ 31 <= hash_of (char_codes s) < 2 ^ 31).
    { intros s. unfold hash_of.
      rewrite (hash_fold (char_codes s) 0 0 eq_refl).
      apply to_int32_range. }
    rewrite <- (value36_toString36 _ (Hr p)),
            <- (value36_toString36 _ (Hr q)).
    now rewrite E.
  - now intros ->.
Qed.

(** ** [generateCode] and the cache *)

Section Generate.
Variable calculateSize : string -> Z.

Implicit Types (this : AIProvider) (d : string).

(** A call that finds nothing usable in the cache and gets an answer. *)
Lemma generateCode_fetch gc d f o now now' now'' this response stats1 :
  Cache.has (cacheKey (code_prompt d f o)) now (cache this) = false ->
  gc (code_request (code_prompt d f o)) (usageStats this)
  = (Ok response, stats1) ->
  generateCode calculateSize gc d f o now now' now'' this
  = (Ok (response_content response),
     {| config := config this;
        cache :=
          Cache.set calculateSize (cacheKey (code_prompt d f o))
            (response_content response) 3600 now' now''
            (snd (Cache.get (cacheKey (code_prompt d f o)) now (cache this)));
        usageStats := updateUsageStats (config this) response stats1 |}).
Proof.
  intros Hmiss Hgc. unfold generateCode. cbv zeta.
  pose proof (CacheMore.cache_get_miss string _ _ _ Hmiss) as Hnone.
  destruct (Cache.get (cacheKey (code_prompt d f o)) now (cache this))
    as [r c1].
  simpl in Hnone. subst r. now rewrite Hgc.
Qed.

(** What the cache holds for the key after such a call. *)
Lemma cached_after_fetch key content now now' now'' later
  (c : Cache.CacheManager string) :
  JSMap.wf (Cache.cache c) ->
  JSMap.size (Cache.cache c) < 1000 ->
  now'' <= later ->
  later - now' < 3600 * 1000 ->
  fst (Cache.get key later
         (Cache.set calculateSize key content 3600 now' now''
            (snd (Cache.get key now c))))
  = Some content.
Proof.
  intros Hwf Hsize Hmono Hfresh.
  apply CacheSpec.get_after_set_below_capacity.
  - now apply CacheSpec.get_wf.
  - pose proof (CacheMore.cache_get_size string key now c). lia.
  - assumption.
  - lia.
Qed.

(** X21. Once a call of [generateCode] has returned a non-empty answer,
    a call with the same arguments that is made after that return and
    within the hour is served from the cache, on a cache below its
    capacity: the provider is not called again, whatever it would answer,
    and the usage statistics, which the first call has increased by one
    request before it returned, are not changed by the cached call. *)
Theorem generateCode_served_from_cache gc d f o now now' now'' later this
  response stats1 :
  JSMap.wf (Cache.cache (cache this)) ->
  JSMap.size (Cache.cache (cache this)) < 1000 ->
  Cache.has (cacheKey (code_prompt d f o)) now (cache this) = false ->
  gc (code_request (code_prompt d f o)) (usageStats this)
  = (Ok response, stats1) ->
  response_content response <> EmptyString ->
  now'' <= later ->
  later - now' < 3600 * 1000 ->
  fst (generateCode calculateSize gc d f o now now' now'' this)
  = Ok (response_content response)
  /\ totalRequests
       (usageStats
          (snd (generateCode calculateSize gc d f o now now' now'' this)))
     = totalRequests stats1 + 1
  /\ (forall gc' t t',
        fst (generateCode calculateSize gc' d f o later t t'
               (snd (generateCode calculateSize gc d f o now now' now''
                       this)))
        = Ok (response_content response)
        /\ usageStats
             (snd (generateCode calculateSize gc' d f o later t t'
                     (snd (generateCode calculateSize gc d f o now now' now''
                             this))))
           = usageStats
               (snd (generateCode calculateSize gc d f o now now' now''
                       this))).
Proof.
  intros Hwf Hsize Hmiss Hgc Hne Hmono Hfresh.
  rewrite (generateCode_fetch gc d f o now now' now'' this response stats1
             Hmiss Hgc).
  cbn [fst snd usageStats updateUsageStats totalRequests].
  split; [reflexivity|]. split; [reflexivity|].
  intros gc' t t'. unfold generateCode. cbv zeta. cbn [cache config usageStats].
  pose proof (cached_after_fetch (cacheKey (code_prompt d f o))
                (response_content response) now now' now'' later
                (cache this) Hwf Hsize Hmono Hfresh) as Hhit.
  destruct (Cache.get _ later _) as [r c2]. simpl in Hhit. subst r.
  destruct (response_content response) as [|a code]; [congruence|].
  split; reflexivity.
Qed.

(** X22. An empty answer is stored in the cache but never served: the
    next [generateCode] of the same prompt reads it, takes it for a miss
    and returns what the provider answers then. *)
Theorem generateCode_empty_answer gc d f o now now' now'' later this
  response stats1 :
  JSMap.wf (Cache.cache (cache this)) ->
  JSMap.size (Cache.cache (cache this)) < 1000 ->
  Cache.has (cacheKey (code_prompt d f o)) now (cache this) = false ->
  gc (code_request (code_prompt d f o)) (usageStats this)
  = (Ok response, stats1) ->
  response_content response = EmptyString ->
  now'' <= later ->
  later - now' < 3600 * 1000 ->
  fst (Cache.get (cacheKey (code_prompt d f o)) later
         (cache (snd (generateCode calculateSize gc d f o now now' now''
                        this))))
  = Some EmptyString
  /\ (forall gc' t t',
        fst (generateCode calculateSize gc' d f o later t t'
               (snd (generateCode calculateSize gc d f o now now' now''
                       this)))
        = match
            fst (gc' (code_request (code_prompt d f o))
                   (usageStats
                      (snd (generateCode calculateSize gc d f o
                              now now' now'' this))))
          with
          | Ok answer => Ok (response_content answer)
          | Throw e => Throw e
          end).
Proof.
  intros Hwf Hsize Hmiss Hgc Hempty Hmono Hfresh.
  rewrite (generateCode_fetch gc d f o now now' now'' this response stats1
             Hmiss Hgc).
  cbn [fst snd cache usageStats].
  pose proof (cached_after_fetch (cacheKey (code_prompt d f o))
                (response_content response) now now' now'' later
                (cache this) Hwf Hsize Hmono Hfresh) as Hhit.
  rewrite Hempty in *. split; [exact Hhit|].
  intros gc' t t'. unfold generateCode. cbv zeta.
  cbn [cache config usageStats].
  destruct (Cache.get _ later _) as [r c2]. simpl in Hhit. subst r.
  destruct (gc' _ _) as [[answer|e] stats2]; reflexivity.
Qed.

Lemma code_prompt_Aa_BB pre post f o :
  cacheKey (code_prompt (pre ++ "Aa" ++ post) f o)
  = cacheKey (code_prompt (pre ++ "BB" ++ post) f o).
Proof.
  unfold cacheKey, hashString, code_prompt, buildCodeGenerationPrompt.
  set (tail := prompt_tail f _ _ _ _).
  assert (E : forall x : string,
            (prompt_head f ++ (pre ++ x ++ post) ++ tail)%string
            = ((prompt_head f ++ pre) ++ x ++ (post ++ tail))%string).
  { intros x. now rewrite !FigmaMore.app_assoc_string. }
  now rewrite !E, hash_of_Aa_BB.
Qed.

(** X23. When a design description differs from one answered within the
    hour only by [BB] in place of [Aa], [generateCode] returns the code
    that was generated for the other description, without asking the
    provider. *)
Theorem generateCode_wrong_answer gc pre post f o now now' now'' later this
  response stats1 :
  JSMap.wf (Cache.cache (cache this)) ->
  JSMap.size (Cache.cache (cache this)) < 1000 ->
  Cache.has (cacheKey (code_prompt (pre ++ "Aa" ++ post) f o)) now
    (cache this) = false ->
  gc (code_request (code_prompt (pre ++ "Aa" ++ post) f o)) (usageStats this)
  = (Ok response, stats1) ->
  response_content response <> EmptyString ->
  now'' <= later ->
  later - now' < 3600 * 1000 ->
  (pre ++ "Aa" ++ post)%string <> (pre ++ "BB" ++ post)%string
  /\ (forall gc' t t',
        fst (generateCode calculateSize gc' (pre ++ "BB" ++ post) f o
               later t t'
               (snd (generateCode calculateSize gc (pre ++ "Aa" ++ post) f o
                       now now' now'' this)))
        = Ok (response_content response)).
Proof.
  intros Hwf Hsize Hmiss Hgc Hne Hmono Hfresh.
  split; [apply Aa_BB_differ|].
  rewrite (generateCode_fetch gc _ f o now now' now'' this response stats1
             Hmiss Hgc).
  intros gc' t t'. unfold generateCode. cbv zeta.
  cbn [snd cache config usageStats].
  rewrite <- code_prompt_Aa_BB.
  pose proof (cached_after_fetch
                (cacheKey (code_prompt (pre ++ "Aa" ++ post) f o))
                (response_content response) now now' now'' later
                (cache this) Hwf Hsize Hmono Hfresh) as Hhit.
  destruct (Cache.get _ later _) as [r c2]. simpl in Hhit. subst r.
  destruct (response_content response) as [|a code]; [congruence|].
  reflexivity.
Qed.

End Generate.

(** ** The usage statistics *)

Lemma in_prototype_names name :
  existsb (String.eqb name) prototype_names = true
  <-> In name prototype_names.
Proof.
  rewrite existsb_exists. split.
  - intros [x [Hin Heq]]. apply String.eqb_eq in Heq. now subst.
  - intros Hin. exists name. split; [exact Hin|apply String.eqb_refl].
Qed.

(** Under a name that [Object.prototype] does not have, an object whose
    properties are numbers gets one more or counts one up. *)
Lemma write_number name (o : JSMap.t Count) : forall counts : list Z,
  ~ In name prototype_names ->
  JSMap.values o = map Number counts ->
  exists counts',
    JSMap.values
      (write_member name (or_zero_plus_one (read_member name o)) o)
    = map Number counts'
    /\ sum counts' = sum counts + 1.
Proof.
  intros counts Hname.
  assert (Hex : existsb (String.eqb name) prototype_names = false).
  { destruct (existsb (String.eqb name) prototype_names) eqn:E;
      [|reflexivity].
    apply in_prototype_names in E. contradiction. }
  assert (Hproto : String.eqb name "__proto__" = false).
  { apply String.eqb_neq. intros ->. apply Hname. simpl. tauto. }
  unfold write_member. rewrite Hproto. unfold read_member. rewrite Hex.
  clear Hname Hex Hproto. revert counts.
  induction o as [|[k c] o IH]; intros counts Hvalues.
  - destruct counts; [|discriminate]. exists [1]. split; reflexivity.
  - destruct counts as [|n counts]; [discriminate|].
    simpl in Hvalues. injection Hvalues as Hc Hrest. subst c.
    cbn [JSMap.get JSMap.set]. destruct (String.eqb name k).
    + exists (n + 1 :: counts). cbn [or_zero_plus_one]. split.
      * simpl. now rewrite Hrest.
      * unfold sum. simpl. lia.
    + destruct (IH counts Hrest) as [counts' [Hv Hs]].
      exists (n :: counts'). split.
      * unfold JSMap.values in *. cbn [map snd]. now rewrite Hv.
      * unfold sum in *. simpl. lia.
Qed.

(** Under a name that [Object.prototype] has, no write leaves a
    number. *)
Lemma write_inherited model name (o : JSMap.t Count) :
  In name prototype_names ->
  (forall n, JSMap.get name o <> Some (Number n)) ->
  forall n,
    JSMap.get name
      (write_member model (or_zero_plus_one (read_member model o)) o)
    <> Some (Number n).
Proof.
  intros Hname Hold n. unfold write_member.
  destruct (String.eqb model "__proto__"); [apply Hold|].
  destruct (String.eqb model name) eqn:E.
  - apply String.eqb_eq in E. subst model.
    rewrite JSMapFacts.get_set_same. unfold read_member.
    destruct (JSMap.get name o) as [[m|text ones]|] eqn:G.
    + exfalso. exact (Hold m eq_refl).
    + discriminate.
    + apply in_prototype_names in Hname. rewrite Hname. discriminate.
  - apply String.eqb_neq in E.
    rewrite JSMapFacts.get_set_other by exact E. apply Hold.
Qed.

(** X24. Each [updateUsageStats] adds one request and the tokens of the
    response: from the reset on, [totalRequests] is the number of
    responses recorded and [totalTokens] the sum of their tokens. When
    no model of a response is named like a member of [Object.prototype],
    the counts by model are numbers and add up to the number of
    requests. Under the name of such a member the count is never a
    number. *)
Theorem usageStats_by_model cfg (responses : list AIResponse) :
  let stats :=
    fold_left (fun st r => updateUsageStats cfg r st) responses noUsage in
  totalRequests stats = Z.of_nat (List.length responses)
  /\ stats_totalTokens stats
     = sum (map (fun r => totalTokens (usage r)) responses)
  /\ (Forall (fun r => ~ In (response_model r) prototype_names) responses ->
      exists counts : list Z,
        JSMap.values (requestsByModel stats) = map Number counts
        /\ sum counts = totalRequests stats)
  /\ (forall name n,
        In name prototype_names ->
        JSMap.get name (requestsByModel stats) <> Some (Number n)).
Proof.
  cbv zeta.
  assert (Hgen : forall st,
    let stats := fold_left (fun st r => updateUsageStats cfg r st)
                   responses st in
    totalRequests stats
    = totalRequests st + Z.of_nat (List.length responses)
    /\ stats_totalTokens stats
       = stats_totalTokens st
         + sum (map (fun r => totalTokens (usage r)) responses)
    /\ (Forall (fun r => ~ In (response_model r) prototype_names)
          responses ->
        forall counts0,
          JSMap.values (requestsByModel st) = map Number counts0 ->
          exists counts,
            JSMap.values (requestsByModel stats) = map Number counts
            /\ sum counts = sum counts0 + Z.of_nat (List.length responses))
    /\ (forall name,
          In name prototype_names ->
          (forall n, JSMap.get name (requestsByModel st)
                     <> Some (Number n)) ->
          forall n, JSMap.get name (requestsByModel stats)
                    <> Some (Number n))).
  { induction responses as [|r rs IH]; intros st; cbv zeta.
    - simpl. repeat split; try lia.
      + intros _ counts0 H0. exists counts0. split; [exact H0|lia].
      + auto.
    - cbn [fold_left]. destruct (IH (updateUsageStats cfg r st))
        as [H1 [H2 [H3 H4]]].
      rewrite H1, H2. cbn [updateUsageStats totalRequests
        stats_totalTokens requestsByModel] in *.
      cbn [List.length map sum fold_right].
      split; [lia|]. split; [unfold sum; lia|]. split.
      + intros Hall counts0 H0. inversion Hall as [|? ? Hr Hrs]; subst.
        destruct (write_number (response_model r) (requestsByModel st)
                    counts0 Hr H0) as [counts1 [Hv1 Hs1]].
        destruct (H3 Hrs counts1 Hv1) as [counts [Hv Hs]].
        exists counts. split; [exact Hv|lia].
      + intros name Hname Hold. apply (H4 name Hname).
        now apply write_inherited. }
  destruct (Hgen noUsage) as [H1 [H2 [H3 H4]]].
  rewrite H1, H2. simpl. split; [lia|]. split; [lia|]. split.
  - intros Hall. destruct (H3 Hall [] eq_refl) as [counts [Hv Hs]].
    exists counts. split; [exact Hv|]. unfold sum in *. simpl in Hs. lia.
  - intros name n Hname. apply (H4 name Hname). discriminate.
Qed.

End AIMore.

(* ================================================================== *)
(** * The further properties on concrete inputs *)
(* ================================================================== *)

Module MoreExamples.

Lemma sorted_by_expiry_ok (c : JSMap.t (Cache.CacheEntry string)) :
  SampleClient.sorted_by_expiry c = true ->
  StronglySorted Cache.le_expires c.
Proof.
  induction c as [|x c IH]; simpl; intros Hs; [constructor|].
  apply andb_true_iff in Hs. destruct Hs as [Hx Hc].
  constructor; [auto|].
  apply Forall_forall. intros y Hy. rewrite forallb_forall in Hx.
  apply Z.leb_le. now apply Hx.
Qed.


(** The 1001st entry on a full cache of entries with one ttl: the 100
    entries set first go. *)
Lemma set_drops_oldest_witness :
  Cache.cache
    (Cache.set Sample.sizeOf (Sample.key_of 1000) "x" 3600 0 0 Sample.full)
  = skipn 100 (Cache.cache Sample.full)
    ++ [(Sample.key_of 1000,
         {| Cache.data := "x"; Cache.expires := 0 + 3600 * 1000;
            Cache.size := Sample.sizeOf "x" |})].
Proof.
  apply (CacheMore.set_drops_oldest string Sample.sizeOf
           (Sample.key_of 1000) "x" 3600 0 0 Sample.full).
  - apply CacheExamples.wf_filled.
  - vm_compute. reflexivity.
  - vm_compute. reflexivity.
  - apply sorted_by_expiry_ok. vm_compute. reflexivity.
  - apply Forall_forall. intros x Hx.
    assert (Hb : forallb
              (fun x => (0 <=? Cache.expires (snd x))
                        && (Cache.expires (snd x) <=? 0 + 3600 * 1000))
              (Cache.cache Sample.full) = true)
      by (vm_compute; reflexivity).
    rewrite forallb_forall in Hb. apply Hb in Hx.
    apply andb_true_iff in Hx. destruct Hx as [H1 H2].
    apply Z.leb_le in H1, H2. lia.
  - lia.
Defined.

Lemma store_then_retrieve_witness :
  @TokenStorage.retrieveToken ToyCrypto.node true None "figma-token"
    (@TokenStorage.storeToken ToyCrypto.node true None ToyCrypto.zeros
       "figma-token" "figd_abc123" JSMap.empty)
  = Some "figd_abc123".
Proof.
  apply (@TokenMore.store_then_retrieve ToyCrypto.node
           TokenExamples.toy_sha256_length TokenExamples.toy_gcm_encrypt_ok
           TokenExamples.toy_gcm_encrypt_length
           TokenExamples.toy_gcm_decrypt_encrypt
           None ToyCrypto.zeros "figma-token" "figd_abc123" JSMap.empty).
  - reflexivity.
  - reflexivity.
Defined.

Lemma hashToken_format_witness :
  String.length (@TokenStorage.hashToken ToyCrypto.node "figd_abc123")
  = 64%nat
  /\ Hex.all_digits (@TokenStorage.hashToken ToyCrypto.node "figd_abc123")
     = true
  /\ Buffer.from_hex (@TokenStorage.hashToken ToyCrypto.node "figd_abc123")
     = @sha256 ToyCrypto.node (@utf8_encode ToyCrypto.node "figd_abc123").
Proof.
  exact (@TokenMore.hashToken_format ToyCrypto.node
           TokenExamples.toy_sha256_length "figd_abc123").
Defined.

(** A negative length, a token too long for strings of at most 100
    characters, and a token of 32 bytes under the string limit of a
    64-bit engine. *)
Lemma generateSecureToken_format_witness :
  (exists error,
     TokenStorage.generateSecureToken (2 ^ 29 - 24) ToyCrypto.zeros (-1)
     = Throw error)
  /\ (exists error,
        TokenStorage.generateSecureToken 100 ToyCrypto.zeros 64
        = Throw error)
  /\ (exists token,
        TokenStorage.generateSecureToken (2 ^ 29 - 24) ToyCrypto.zeros 32
        = Ok token
        /\ String.length token = (2 * Z.to_nat 32)%nat
        /\ Hex.all_digits token = true
        /\ Buffer.from_hex token = ToyCrypto.zeros 32).
Proof.
  split; [|split].
  - apply (proj1 (TokenMore.generateSecureToken_format
                    (2 ^ 29 - 24) ToyCrypto.zeros (-1))).
    left. lia.
  - apply (proj1 (proj2 (TokenMore.generateSecureToken_format
                           100 ToyCrypto.zeros 64))).
    + lia.
    + lia.
    + reflexivity.
  - apply (proj2 (proj2 (TokenMore.generateSecureToken_format
                           (2 ^ 29 - 24) ToyCrypto.zeros 32))).
    + lia.
    + lia.
    + reflexivity.
Defined.

Lemma extractFileKey_sound_witness :
  "ABC123" <> EmptyString
  /\ FigmaClient.all_alnum "ABC123" = true
  /\ exists pattern pre post,
       In pattern FigmaClient.patterns
       /\ "https://www.figma.com/file/ABC123/My-Design"
          = (pre ++ pattern ++ "ABC123" ++ post)%string
       /\ FigmaClient.starts_alnum post = false.
Proof.
  apply (FigmaMore.extractFileKey_sound
           "https://www.figma.com/file/ABC123/My-Design" "ABC123").
  reflexivity.
Defined.

Lemma extractFileKey_file_url_witness :
  FigmaClient.extractFileKey
    ("https://www." ++ "figma.com/file/" ++ "ABC123" ++ "/My-Design")
  = Some "ABC123".
Proof.
  apply (FigmaMore.extractFileKey_file_url
           "https://www." "ABC123" "/My-Design").
  - repeat constructor; discriminate.
  - discriminate.
  - reflexivity.
  - reflexivity.
Defined.

Lemma getToken_after_setToken_witness :
  @FigmaClient.getToken ToyCrypto.node string None SampleClient.client
  = Ok "figd_test_token".
Proof.
  exact (proj1 (@FigmaCache.getToken_after_setToken ToyCrypto.node
           TokenExamples.toy_sha256_length TokenExamples.toy_gcm_encrypt_ok
           TokenExamples.toy_gcm_encrypt_length
           TokenExamples.toy_gcm_decrypt_encrypt
           string None ToyCrypto.zeros "figd_test_token"
           {| FigmaClient.config := FigmaClient.defaultConfig;
              FigmaClient.cache := Cache.new |}
           eq_refl eq_refl)).
Defined.

(** A file fetched at time 0 and asked for again half an hour later,
    with the network down. *)
Lemma getFile_served_from_cache_witness :
  fst (@FigmaClient.getFile ToyCrypto.node string SampleClient.sizeOf
         SampleClient.always SampleClient.http_ok None "ABC123" 0 0 0
         SampleClient.client)
  = Ok "{name:Test File}"
  /\ (forall (http' : string -> string -> result string) t t',
        fst (@FigmaClient.getFile ToyCrypto.node string SampleClient.sizeOf
               SampleClient.always http' None "ABC123" 1800000 t t'
               (snd (@FigmaClient.getFile ToyCrypto.node string
                       SampleClient.sizeOf SampleClient.always
                       SampleClient.http_ok None "ABC123" 0 0 0
                       SampleClient.client)))
        = Ok "{name:Test File}").
Proof.
  apply (@FigmaCache.getFile_served_from_cache ToyCrypto.node string
           SampleClient.sizeOf SampleClient.always SampleClient.http_ok
           None "ABC123" "{name:Test File}" 0 0 0 1800000
           SampleClient.client).
  - reflexivity.
  - constructor.
  - vm_compute. reflexivity.
  - reflexivity.
  - vm_compute. reflexivity.
  - reflexivity.
  - lia.
  - lia.
Defined.

(** An answer obtained at time 0 and asked for again half an hour later
    from a provider that refuses. *)
Lemma generateCode_served_from_cache_witness :
  fst (AIProvider.generateCode SampleClient.sizeOf SampleClient.refuse
         "A login form" AIProvider.react SampleClient.noOptions
         1800000 1800000 1800000
         (snd (AIProvider.generateCode SampleClient.sizeOf
                 (SampleClient.answer "<form/>") "A login form"
                 AIProvider.react SampleClient.noOptions 0 0 0
                 SampleClient.provider)))
  = Ok "<form/>".
Proof.
  destruct (AIMore.generateCode_served_from_cache SampleClient.sizeOf
              (SampleClient.answer "<form/>") "A login form" AIProvider.react
              SampleClient.noOptions 0 0 0 1800000 SampleClient.provider
              (SampleClient.response_of "<form/>") AIProvider.noUsage)
    as [_ [_ Hsecond]].
  - constructor.
  - vm_compute. reflexivity.
  - reflexivity.
  - reflexivity.
  - discriminate.
  - lia.
  - lia.
  - exact (proj1 (Hsecond SampleClient.refuse 1800000 1800000)).
Defined.

(** An empty answer, and the next call half an hour later. *)
Lemma generateCode_empty_answer_witness :
  fst (AIProvider.generateCode SampleClient.sizeOf
         (SampleClient.answer "<div/>")
         "A login form" AIProvider.react SampleClient.noOptions
         1800000 1800000 1800000
         (snd (AIProvider.generateCode SampleClient.sizeOf
                 (SampleClient.answer EmptyString) "A login form"
                 AIProvider.react SampleClient.noOptions 0 0 0
                 SampleClient.provider)))
  = Ok "<div/>".
Proof.
  destruct (AIMore.generateCode_empty_answer SampleClient.sizeOf
              (SampleClient.answer EmptyString) "A login form"
              AIProvider.react SampleClient.noOptions 0 0 0 1800000
              SampleClient.provider
              (SampleClient.response_of EmptyString) AIProvider.noUsage)
    as [_ Hsecond].
  - constructor.
  - vm_compute. reflexivity.
  - reflexivity.
  - reflexivity.
  - reflexivity.
  - lia.
  - lia.
  - exact (Hsecond (SampleClient.answer "<div/>") 1800000 1800000).
Defined.

(** Two descriptions, and the code of the first returned for the
    second. *)
Lemma generateCode_wrong_answer_witness :
  fst (AIProvider.generateCode SampleClient.sizeOf SampleClient.refuse
         ("Card " ++ "BB" ++ " with a title")
         AIProvider.react SampleClient.noOptions
         1800000 1800000 1800000
         (snd (AIProvider.generateCode SampleClient.sizeOf
                 (SampleClient.answer "<Aa/>")
                 ("Card " ++ "Aa" ++ " with a title")
                 AIProvider.react SampleClient.noOptions 0 0 0
                 SampleClient.provider)))
  = Ok "<Aa/>".
Proof.
  destruct (AIMore.generateCode_wrong_answer SampleClient.sizeOf
              (SampleClient.answer "<Aa/>") "Card " " with a title"
              AIProvider.react SampleClient.noOptions 0 0 0 1800000
              SampleClient.provider
              (SampleClient.response_of "<Aa/>") AIProvider.noUsage)
    as [_ Hsecond].
  - constructor.
  - vm_compute. reflexivity.
  - reflexivity.
  - reflexivity.
  - discriminate.
  - lia.
  - lia.
  - exact (Hsecond SampleClient.refuse 1800000 1800000).
Defined.

(** Three responses of two models with ordinary names. *)
Lemma usageStats_by_model_witness :
  exists counts : list Z,
    JSMap.values
      (AIProvider.requestsByModel
         (fold_left
            (fun st r =>
               AIProvider.updateUsageStats
                 (AIProvider.config SampleClient.provider) r st)
            SampleClient.responses AIProvider.noUsage))
    = map AIProvider.Number counts
    /\ AIProvider.sum counts
       = AIProvider.totalRequests
           (fold_left
              (fun st r =>
                 AIProvider.updateUsageStats
                   (AIProvider.config SampleClient.provider) r st)
              SampleClient.responses AIProvider.noUsage).
Proof.
  apply (proj1 (proj2 (proj2
           (AIMore.usageStats_by_model
              (AIProvider.config SampleClient.provider)
              SampleClient.responses)))).
  repeat constructor; intros Hin; simpl in Hin;
    repeat (destruct Hin as [Hin|Hin]; [discriminate|]); exact Hin.
Defined.

End MoreExamples.
